(** * straug batch augmentation driver ([revised_process.py])

    A shallow embedding of the driver script and the properties of its run
    log, its artifacts and its event order.

    The script is sequential Python that mutates a module-level list
    ([log_data]), the file system and numpy's global random generator, and
    that isolates failures with one [try]/[except Exception] per image.  It
    is modelled with a state-and-exception monad over an explicit [World];
    every call into a collaborator (numpy, os, json, PIL, the straug
    operator classes) is a primitive of that monad which also appends an
    [event] to a ghost trace, so that "what happened, in which order" can be
    stated.

    Modelling conventions:
    - [Exn] stands for the instances of Python's [Exception], which is what
      [except Exception] catches.
    - PIL, os, json and the straug operator classes are collaborators: they
      are the fields of the class [External].
    - The calls of [main] outside the [try] block (seeding, [os.makedirs],
      writing the log document, [os.listdir]) are taken to succeed: the
      seed is one numpy accepts, the result directory can be created and
      written, and [process_log.json], when present, is a regular file.
    - Paths are POSIX paths ([os.path] is [posixpath]), and strings are
      sequences of 8-bit characters.
    - [logger.debug]/[logger.error]/[print] lines have no effect on the
      modelled state and are left out. *)

From stdpp Require Import gmap strings list pretty sorting.
From Stdlib Require Import ZArith Ascii.

(** ** Python strings and [os.path] *)

Module Py.

(** [c in s] for a one-character [c]. *)
Fixpoint contains (c : ascii) (s : string) : bool :=
  match s with
  | EmptyString => false
  | String d s' => bool_decide (d = c) || contains c s'
  end.

(** [s.startswith(prefix)] *)
Fixpoint startswith (s prefix : string) : bool :=
  match prefix, s with
  | EmptyString, _ => true
  | String _ _, EmptyString => false
  | String c p, String d s' => bool_decide (d = c) && startswith s' p
  end.

(** [s.endswith(suffix)]: some tail of [s] is [suffix]. *)
Fixpoint endswith (s suffix : string) : bool :=
  bool_decide (s = suffix) ||
  match s with
  | EmptyString => false
  | String _ s' => endswith s' suffix
  end.

(** [s.rfind(c)] for a one-character [c]: the highest index of [c] in
    [s], or [-1]. *)
Fixpoint rfind (s : string) (c : ascii) : Z :=
  match s with
  | EmptyString => (-1)%Z
  | String d s' =>
      let r := rfind s' c in
      if (0 <=? r)%Z then (r + 1)%Z
      else if bool_decide (d = c) then 0%Z else (-1)%Z
  end.

(** [s[:n]] and [s[n:]] for [0 <= n]. *)
Fixpoint take (n : nat) (s : string) : string :=
  match n, s with
  | S n', String c s' => String c (take n' s')
  | _, _ => EmptyString
  end.

Fixpoint drop (n : nat) (s : string) : string :=
  match n, s with
  | S n', String _ s' => drop n' s'
  | _, _ => s
  end.

(** [s[i:i+1]] *)
Definition char_at (i : nat) (s : string) : string := take 1 (drop i s).

(** [range(lo, hi)] *)
Definition range (lo hi : Z) : list Z :=
  (λ i : nat, (lo + Z.of_nat i)%Z) <$> seq 0 (Z.to_nat (hi - lo)).

(** [str(n)] and [f"{n}"] for an [int]. *)
Definition str_int (n : Z) : string := pretty n.

(** The [while] loop of [genericpath._splitext]: walks [filenameIndex]
    over the given indices and reports whether some character there
    differs from the extension separator. *)
Fixpoint splitext_scan (p : string) (idxs : list nat) : bool :=
  match idxs with
  | [] => false
  | i :: rest =>
      if bool_decide (char_at i p ≠ ".") then true
      else splitext_scan p rest
  end.

(** [posixpath.splitext(p)]:
    the extension starts at the last dot of the last path component,
    unless that component has only dots before it. *)
Definition splitext (p : string) : string * string :=
  let sepIndex := rfind p "/"%char in
  let dotIndex := rfind p "."%char in
  if (sepIndex <? dotIndex)%Z then
    let filenameIndex := Z.to_nat (sepIndex + 1) in
    if splitext_scan p (seq filenameIndex (Z.to_nat dotIndex - filenameIndex))
    then (take (Z.to_nat dotIndex) p, drop (Z.to_nat dotIndex) p)
    else (p, EmptyString)
  else (p, EmptyString).

(** [posixpath.join(a, b)] *)
Definition join (a b : string) : string :=
  if startswith b "/" then b
  else if bool_decide (a = "") || endswith a "/" then a +:+ b
  else a +:+ "/" +:+ b.

(** [s[-1:]], as an optional character. *)
Fixpoint last_char (s : string) : option ascii :=
  match s with
  | EmptyString => None
  | String c EmptyString => Some c
  | String _ s' => last_char s'
  end.

(** [s] is made of dots only. *)
Fixpoint only_dots (s : string) : bool :=
  match s with
  | EmptyString => true
  | String c s' => bool_decide (c = "."%char) && only_dots s'
  end.

End Py.

(** ** The data of a run *)

(** The operator classes the script imports from straug. *)
Inductive op_class :=
  | Curve | Distort | Stretch
  | Rotate | Perspective | Shrink
  | Grid | VGrid | HGrid | RectGrid | EllipseGrid
  | Fog | Snow | Frost | Rain | Shadow
  | Contrast | Brightness | JpegCompression | Pixelate
  | Posterize | Solarize | Invert | Equalize | AutoContrast | Sharpness | Color
  | GaussianBlur | DefocusBlur | MotionBlur | GlassBlur | ZoomBlur.

Global Instance op_class_eq_dec : EqDecision op_class.
Proof. solve_decision. Defined.

(** The two dictionaries the script appends to [log_data]. *)
Inductive log_entry :=
  | Success (file function : string) (magnitude : Z) (output_file : string)
  | Failure (file error : string).

Global Instance log_entry_eq_dec : EqDecision log_entry.
Proof. solve_decision. Defined.

Definition entry_file (r : log_entry) : string :=
  match r with
  | Success f _ _ _ => f
  | Failure f _ => f
  end.

Definition is_success (r : log_entry) : bool :=
  match r with Success _ _ _ _ => true | Failure _ _ => false end.

Definition is_failure (r : log_entry) : bool := negb (is_success r).

(** JSON values, as [json.dump] receives them. *)
#[warnings="-register-all"]
Inductive json :=
  | JInt (n : Z)
  | JStr (s : string)
  | JList (items : list json)
  | JDict (items : list (string * json)).

Definition entry_json (r : log_entry) : json :=
  match r with
  | Success f fn mag out =>
      JDict [("file", JStr f); ("function", JStr fn);
             ("magnitude", JInt mag); ("output_file", JStr out)]
  | Failure f err => JDict [("file", JStr f); ("error", JStr err)]
  end.

Definition log_json (l : list log_entry) : json := JList (entry_json <$> l).

(** An instance of [Exception]; [str(e)] is its message. *)
Record Exn := mkExn { exn_class : string; exn_msg : string }.

Inductive Result (A : Type) :=
  | Ok (a : A)
  | Raise (e : Exn).
Arguments Ok {A} a.
Arguments Raise {A} e.

(** The command line, after [argparse]. *)
Record Args := mkArgs {
  image_dir : string;
  result_dir : string;
  width : Z;
  height : Z;
  seed : Z;
  max_mag : Z
}.

Section Driver.

(** [Image]: decoded PIL images.  [Rng]: states of numpy's global
    generator. *)
Context {Image Rng : Type}.

(** What a path of the file system holds: a directory, or a file
    described by what was written into it. *)
Inductive content :=
  | Bytes (data : string)
  | PngOf (img : Image)
  | JsonOf (indent : option Z) (doc : json).

Inductive node :=
  | Dir
  | File (c : content).

(** The effects of a run, in program order. *)
Inductive event :=
  | EvSeed (s : Z)
  | EvMakedirs (p : string)
  | EvDump (p : string) (indent : option Z) (doc : json)
  | EvListdir (p : string)
  | EvOpen (p : string)
  | EvNew (cls : op_class) (obj : nat)
  | EvCall (cls : op_class) (obj : nat) (mag : Z)
  | EvSave (p : string) (img : Image).

(** Modelled from the spec: the straug operator classes ([straug.warp],
    [straug.geometry], [straug.weather], [straug.camera],
    [straug.process], [straug.blur]) are not part of the sources at hand.
    The spec gives each operator as a capability that, given an image and
    an integer magnitude, returns a new image or raises, and that is
    stateless across invocations except through the shared random
    generator.  [op_init cls] is the constructor call [cls()] and
    [op_call cls img mag] the call [instance(img, mag=mag)]; both see and
    advance the generator state and nothing else. *)
Class Operators := {
  op_init : op_class → Rng → Result unit * Rng;
  op_call : op_class → Image → Z → Rng → Result Image * Rng
}.

(** The library collaborators of the driver (numpy, os, PIL). *)
Class External := {
  (** the generator state [np.random.seed(s)] installs *)
  np_seed_state : Z → Rng;
  (** the names [os.listdir(d)] returns, in the order it returns them *)
  os_listdir : string → list string;
  (** [Image.open(p)] on what [p] holds ([None]: nothing there) *)
  Image_open : option node → Result Image;
  (** [img.resize((w, h))] *)
  Image_resize : Image → Z → Z → Result Image;
  (** [img.save(p)]: [None] when the file is written *)
  Image_save : Image → string → option Exn
}.

Context `{External, Operators}.

Record World := mkWorld {
  np_random : Rng;               (* numpy's global generator *)
  fs : gmap string node;         (* the file system *)
  log_data : list log_entry;     (* the module-level list *)
  next_obj : nat;                (* objects allocated so far *)
  trace : list event             (* ghost: the effects so far *)
}.

(** *** The state-and-exception monad *)

Definition M (A : Type) : Type := World → Result A * World.

Definition ret {A} (a : A) : M A := λ w, (Ok a, w).

Definition bind {A B} (m : M A) (k : A → M B) : M B :=
  λ w, match m w with
       | (Ok a, w') => k a w'
       | (Raise e, w') => (Raise e, w')
       end.

Definition lift {A} (r : Result A) : M A := λ w, (r, w).

(** [try: m  except Exception as e: h e] *)
Definition try_except {A} (m : M A) (h : Exn → M A) : M A :=
  λ w, match m w with
       | (Ok a, w') => (Ok a, w')
       | (Raise e, w') => h e w'
       end.

(** [for x in xs: body x] *)
Fixpoint for_each {X} (xs : list X) (body : X → M unit) : M unit :=
  match xs with
  | [] => ret tt
  | x :: rest => bind (body x) (λ _, for_each rest body)
  end.

Notation "'let*' x ':=' m 'in' k" := (bind m (λ x, k))
  (at level 10, x name, m at level 100, k at level 200).
Notation "m ;;; k" := (bind m (λ _, k))
  (at level 100, k at level 200, right associativity).

(** *** Primitives *)

Definition emit (e : event) : M unit :=
  λ w, (Ok tt, mkWorld (np_random w) (fs w) (log_data w) (next_obj w)
                       (trace w ++ [e])).

Definition set_fs (p : string) (n : node) : M unit :=
  λ w, (Ok tt, mkWorld (np_random w) (<[p := n]> (fs w)) (log_data w)
                       (next_obj w) (trace w)).

Definition set_rng (r : Rng) : M unit :=
  λ w, (Ok tt, mkWorld r (fs w) (log_data w) (next_obj w) (trace w)).

(** Runs a collaborator that consumes the global generator. *)
Definition with_rng {A} (f : Rng → Result A * Rng) : M A :=
  λ w, let '(r, g) := f (np_random w) in
       (r, mkWorld g (fs w) (log_data w) (next_obj w) (trace w)).

Definition new_obj : M nat :=
  λ w, (Ok (next_obj w),
        mkWorld (np_random w) (fs w) (log_data w) (S (next_obj w)) (trace w)).

(** [np.random.seed(s)] *)
Definition np_random_seed (s : Z) : M unit :=
  emit (EvSeed s) ;;; set_rng (np_seed_state s).

(** [os.path.exists(p)] *)
Definition os_path_exists (p : string) : M bool :=
  λ w, (Ok (bool_decide (is_Some (fs w !! p))), w).

(** [os.makedirs(p)] *)
Definition os_makedirs (p : string) : M unit :=
  emit (EvMakedirs p) ;;; set_fs p Dir.

(** [with open(p, 'w') as f: json.dump(doc, f, indent=indent)] *)
Definition json_dump_file (doc : json) (p : string) (indent : option Z)
  : M unit :=
  emit (EvDump p indent doc) ;;; set_fs p (File (JsonOf indent doc)).

Definition listdir (d : string) : M (list string) :=
  emit (EvListdir d) ;;; ret (os_listdir d).

(** [Image.open(p).resize((w, h))] *)
Definition open_resize (p : string) (wd ht : Z) : M Image :=
  emit (EvOpen p) ;;;
  let* img := (λ w, (Image_open (fs w !! p), w)) in
  lift (Image_resize img wd ht).

(** [img.save(p)] *)
Definition save (img : Image) (p : string) : M unit :=
  match Image_save img p with
  | Some e => lift (Raise e)
  | None => emit (EvSave p img) ;;; set_fs p (File (PngOf img))
  end.

(** [log_data.append(r)] *)
Definition log_data_append (r : log_entry) : M unit :=
  λ w, (Ok tt, mkWorld (np_random w) (fs w) (log_data w ++ [r])
                       (next_obj w) (trace w)).

Definition get_log_data : M (list log_entry) := λ w, (Ok (log_data w), w).

(** *** The script *)

(** [apply_augmentation(img, func, mag)]: [func()(img, mag=mag)]. *)
Definition apply_augmentation (img : Image) (func : op_class) (mag : Z)
  : M Image :=
  let* obj := new_obj in
  emit (EvNew func obj) ;;;
  with_rng (op_init func) ;;;
  emit (EvCall func obj mag) ;;;
  with_rng (op_call func img mag).

(** The list [augmentation_functions] of [main]. *)
Definition augmentation_functions : list (op_class * string) :=
  [ (Curve, "curve"); (Distort, "distort"); (Stretch, "stretch");
    (Perspective, "perspective"); (Rotate, "rotate"); (Shrink, "shrink");
    (Fog, "fog"); (Snow, "snow"); (Frost, "frost"); (Rain, "rain");
    (Shadow, "shadow");
    (Contrast, "contrast"); (Brightness, "brightness");
    (JpegCompression, "jpegcompression"); (Pixelate, "pixelate");
    (Posterize, "posterize"); (Solarize, "solarize"); (Invert, "invert");
    (Equalize, "equalize"); (AutoContrast, "autocontrast");
    (Sharpness, "sharpness"); (Color, "color");
    (GaussianBlur, "gaussianblur"); (DefocusBlur, "defocusblur");
    (MotionBlur, "motionblur"); (GlassBlur, "glassblur");
    (ZoomBlur, "zoomblur") ].

(** [f"{base_name}_{func_name}_{mag}.png"] *)
Definition output_file_name (file_name func_name : string) (mag : Z)
  : string :=
  let base_name := fst (Py.splitext file_name) in
  base_name +:+ "_" +:+ func_name +:+ "_" +:+ Py.str_int mag +:+ ".png".

(** The body of the innermost loop (lines 76-91). *)
Definition work_unit (args : Args) (file_name : string) (img : Image)
    (func : op_class) (func_name : string) (mag : Z) : M unit :=
  let* augmented_img := apply_augmentation img func mag in
  let output_file_name := output_file_name file_name func_name mag in
  let output_path := Py.join (result_dir args) output_file_name in
  save augmented_img output_path ;;;
  log_data_append (Success file_name func_name mag output_file_name).

(** The [try] block of one image (lines 73-91), over a catalog. *)
Definition image_body (catalog : list (op_class * string)) (args : Args)
    (file_name : string) : M unit :=
  let img_path := Py.join (image_dir args) file_name in
  let* img := open_resize img_path (width args) (height args) in
  for_each catalog (λ '(func, func_name),
    for_each (Py.range 1 (max_mag args + 1)) (λ mag,
      work_unit args file_name img func func_name mag)).

(** One iteration of the loop over [png_files] (lines 70-98). *)
Definition process_image (catalog : list (op_class * string)) (args : Args)
    (file_name : string) : M unit :=
  try_except (image_body catalog args file_name)
    (λ e, log_data_append (Failure file_name (exn_msg e))).

Definition log_file_path (args : Args) : string :=
  Py.join (result_dir args) "process_log.json".

Definition png_files (args : Args) : list string :=
  filter (λ f, Py.endswith f ".png" = true) (os_listdir (image_dir args)).

(** Lines 38-51: seeding, the result directory, the initial log file. *)
Definition setup (args : Args) : M unit :=
  np_random_seed (seed args) ;;;
  let* there := os_path_exists (result_dir args) in
  (if negb there then os_makedirs (result_dir args) else ret tt) ;;;
  let* there := os_path_exists (log_file_path args) in
  (if negb there then json_dump_file (JList []) (log_file_path args) None
   else ret tt).

(** [main], with the catalog as a parameter. *)
Definition run (catalog : list (op_class * string)) (args : Args) : M unit :=
  setup args ;;;
  let* files := listdir (image_dir args) in
  let png_files := filter (λ f, Py.endswith f ".png" = true) files in
  for_each png_files (process_image catalog args) ;;;
  let* l := get_log_data in
  json_dump_file (log_json l) (log_file_path args) (Some 4%Z).

Definition main (args : Args) : M unit := run augmentation_functions args.

(** The world in which the script starts: the module has just been
    loaded, so [log_data = []]. *)
Definition start (g : Rng) (files : gmap string node) : World :=
  mkWorld g files [] 0 [].

(** *** Vocabulary of the properties *)

(** A WorkUnit of one image: operator class, operator name, magnitude. *)
Definition work_units (catalog : list (op_class * string)) (mm : Z)
  : list (op_class * string * Z) :=
  catalog ≫= λ '(func, func_name),
    (λ mag, (func, func_name, mag)) <$> Py.range 1 (mm + 1).

(** The success record of a WorkUnit of image [f]. *)
Definition success_entry (f : string) (u : op_class * string * Z)
  : log_entry :=
  let '(_, func_name, mag) := u in
  Success f func_name mag (output_file_name f func_name mag).

Definition output_path (args : Args) (f : string)
    (u : op_class * string * Z) : string :=
  let '(_, func_name, mag) := u in
  Py.join (result_dir args) (output_file_name f func_name mag).

(** The world a computation leaves. *)
Definition after {A} (m : M A) (w : World) : World := (m w).2.

(** Successive steps [R x1], [R x2], ... from one world to another. *)
Inductive chain {X} (R : X → World → World → Prop)
  : list X → World → World → Prop :=
  | chain_nil w : chain R [] w w
  | chain_cons x xs w w1 w2 :
      R x w w1 → chain R xs w1 w2 → chain R (x :: xs) w w2.

(** A WorkUnit that completed: instance constructed and called, artifact
    saved, success record appended. *)
Definition unit_ok (args : Args) (f : string) (u : op_class * string * Z)
    (w w' : World) : Prop :=
  ∃ g im,
    w' = mkWorld g (<[output_path args f u := File (PngOf im)]> (fs w))
           (log_data w ++ [success_entry f u]) (S (next_obj w))
           (trace w ++ [EvNew u.1.1 (next_obj w);
                        EvCall u.1.1 (next_obj w) u.2;
                        EvSave (output_path args f u) im]).

(** A WorkUnit that raised: in the constructor, or later (in the call or
    in the save). *)
Definition unit_fail (u : op_class * string * Z) (w w' : World) : Prop :=
  ∃ g evs,
    w' = mkWorld g (fs w) (log_data w) (S (next_obj w)) (trace w ++ evs) ∧
    (evs = [EvNew u.1.1 (next_obj w)] ∨
     evs = [EvNew u.1.1 (next_obj w); EvCall u.1.1 (next_obj w) u.2]).

(** What one iteration of the loop over the images does. *)
Inductive image_run (catalog : list (op_class * string)) (args : Args)
    (f : string) (w : World) : World → Prop :=
  | image_complete w' :
      chain (unit_ok args f) (work_units catalog (max_mag args))
        (after (emit (EvOpen (Py.join (image_dir args) f))) w) w' →
      image_run catalog args f w w'
  | image_not_opened e :
      image_run catalog args f w
        (after (log_data_append (Failure f (exn_msg e)))
           (after (emit (EvOpen (Py.join (image_dir args) f))) w))
  | image_unit_raised done u rest w1 w2 e :
      work_units catalog (max_mag args) = done ++ u :: rest →
      chain (unit_ok args f) done
        (after (emit (EvOpen (Py.join (image_dir args) f))) w) w1 →
      unit_fail u w1 w2 →
      image_run catalog args f w
        (after (log_data_append (Failure f (exn_msg e))) w2).

(** Projections of a trace. *)
Definition ev_seeds (t : list event) : list Z :=
  omap (λ e, match e with EvSeed s => Some s | _ => None end) t.

Definition ev_opens (t : list event) : list string :=
  omap (λ e, match e with EvOpen p => Some p | _ => None end) t.

Definition ev_news (t : list event) : list (op_class * nat) :=
  omap (λ e, match e with EvNew c o => Some (c, o) | _ => None end) t.

Definition ev_calls (t : list event) : list (op_class * nat * Z) :=
  omap (λ e, match e with EvCall c o m => Some (c, o, m) | _ => None end) t.

Definition ev_saves (t : list event) : list (string * Image) :=
  omap (λ e, match e with EvSave p i => Some (p, i) | _ => None end) t.


(** The events of the loop over the images. *)
Definition is_image_event (e : event) : bool :=
  match e with
  | EvOpen _ | EvNew _ _ | EvCall _ _ _ | EvSave _ _ => true
  | _ => false
  end.

(** The path an event writes, if it writes one. *)
Definition written (e : event) : option string :=
  match e with
  | EvMakedirs p | EvDump p _ _ | EvSave p _ => Some p
  | _ => None
  end.

(** The file system after an event, and after a trace: what is on disk
    when the process stops there. *)
Definition apply_event (d : gmap string node) (e : event)
  : gmap string node :=
  match e with
  | EvMakedirs p => <[p := Dir]> d
  | EvDump p i doc => <[p := File (JsonOf i doc)]> d
  | EvSave p img => <[p := File (PngOf img)]> d
  | _ => d
  end.

Definition disk_after (d : gmap string node) (t : list event)
  : gmap string node := foldl apply_event d t.

(** The WorkUnits a trace executed: each operator call with the image
    opened last before it. *)
Fixpoint executed_from (cur : string) (t : list event)
  : list (string * op_class * Z) :=
  match t with
  | [] => []
  | EvOpen p :: t' => executed_from p t'
  | EvCall c _ m :: t' => (cur, c, m) :: executed_from cur t'
  | _ :: t' => executed_from cur t'
  end.

Definition executed (t : list event) : list (string * op_class * Z) :=
  executed_from "" t.

(** Every operator call directly follows the construction of the
    instance it is made on. *)
Definition call_after_new (t : list event) : Prop :=
  ∀ i c o m, t !! i = Some (EvCall c o m) →
    ∃ j, i = S j ∧ t !! j = Some (EvNew c o).

(** The events of the setup on a disk [d]: the seeding, then the
    creation of the result directory and of the log file where they do
    not exist. *)
Definition setup_events (args : Args) (d : gmap string node) : list event :=
  let t1 := if bool_decide (is_Some (d !! result_dir args)) then []
            else [EvMakedirs (result_dir args)] in
  let d1 := disk_after d t1 in
  let t2 := if bool_decide (is_Some (d1 !! log_file_path args)) then []
            else [EvDump (log_file_path args) None (JList [])] in
  EvSeed (seed args) :: t1 ++ t2.

(** The world the setup leaves, as a function of the world it starts in. *)
Definition setup_world (args : Args) (w : World) : World :=
  mkWorld (np_seed_state (seed args))
    (disk_after (fs w) (setup_events args (fs w)))
    (log_data w) (next_obj w) (trace w ++ setup_events args (fs w)).

(** What a stretch of the loop over the images does to the world, in
    terms of the events [evs] it appends to the trace. *)
Record delta (args : Args) (w : World) (evs : list event) (w' : World)
  : Prop := mkDelta {
  delta_trace : trace w' = trace w ++ evs;
  delta_disk : fs w' = disk_after (fs w) evs;
  delta_kind : Forall (λ e, is_image_event e = true) evs;
  delta_paths : Forall (λ e, written e ≠ Some (log_file_path args)) evs;
  delta_calls : call_after_new evs;
  delta_objs : (ev_news evs).*2 = seq (next_obj w) (length (ev_news evs));
  delta_next : next_obj w' = next_obj w + length (ev_news evs);
  delta_called : (ev_calls evs).*1.*2 `sublist_of` (ev_news evs).*2
}.

(** An artifact is on disk at [p]. *)
Definition png_at (d : gmap string node) (p : string) : Prop :=
  ∃ im, d !! p = Some (File (PngOf im)).

(** The WorkUnits of image [f] as [executed] reports them. *)
Definition units_of (catalog : list (op_class * string)) (args : Args)
    (f : string) : list (string * op_class * Z) :=
  (λ u : op_class * string * Z, (Py.join (image_dir args) f, u.1.1, u.2))
    <$> work_units catalog (max_mag args).

(** The success records of image [f] when all its WorkUnits complete. *)
Definition records_of (catalog : list (op_class * string)) (args : Args)
    (f : string) : list log_entry :=
  success_entry f <$> work_units catalog (max_mag args).

(** What one image contributes to the log ([o.1]) and to the executed
    WorkUnits ([o.2]): all of its WorkUnits, or a prefix of them and one
    failure record. *)
Definition image_out (catalog : list (op_class * string)) (args : Args)
    (f : string) (o : list log_entry * list (string * op_class * Z))
  : Prop :=
  ∃ k k' tail,
    o.1 = take k (records_of catalog args f) ++ tail ∧
    o.2 = take k' (units_of catalog args f) ∧
    ((tail = [] ∧ length (work_units catalog (max_mag args)) ≤ k
                ∧ length (work_units catalog (max_mag args)) ≤ k') ∨
     (∃ e, tail = [Failure f e]) ∧ k ≤ k').

(** The output file of a success record has the name the script builds
    for it, and the artifact is on disk under it. *)
Definition artifact_on_disk (args : Args) (d : gmap string node)
    (r : log_entry) : Prop :=
  match r with
  | Success f func_name mag out =>
      out = output_file_name f func_name mag ∧
      png_at d (Py.join (result_dir args) out)
  | Failure _ _ => True
  end.

(** The events of a whole run on a disk [d], given the events [evs] of
    the loop over the images and the final log [l]. *)
Definition run_events (args : Args) (d : gmap string node)
    (evs : list event) (l : list log_entry) : list event :=
  setup_events args d ++ EvListdir (image_dir args) :: evs
  ++ [EvDump (log_file_path args) (Some 4%Z) (log_json l)].

(** A run from [w]: [wl] is the world after the loop over the images,
    [outs] what each image contributed, [evs] the events of the loop. *)
Record run_summary (catalog : list (op_class * string)) (args : Args)
    (w wl : World)
    (outs : list (list log_entry * list (string * op_class * Z)))
    (evs : list event) : Prop := mkSummary {
  rs_result :
    run catalog args w
    = (Ok tt, after (json_dump_file (log_json (log_data wl))
                       (log_file_path args) (Some 4%Z)) wl);
  rs_outs : Forall2 (image_out catalog args) (png_files args) outs;
  rs_log : log_data wl = log_data w ++ concat outs.*1;
  rs_delta : delta args (after (emit (EvListdir (image_dir args)))
                           (setup_world args w)) evs wl;
  rs_opens : ev_opens evs = Py.join (image_dir args) <$> png_files args;
  rs_executed : ∀ cur, executed_from cur evs = concat outs.*2;
  rs_artifacts : Forall (artifact_on_disk args (fs wl)) (concat outs.*1);
  rs_final_log : log_data (after (run catalog args) w) = log_data wl;
  rs_trace :
    trace (after (run catalog args) w)
    = trace w ++ run_events args (fs w) evs (log_data wl);
  rs_disk :
    fs (after (run catalog args) w)
    = disk_after (fs w) (run_events args (fs w) evs (log_data wl))
}.

(** A listed PNG name whose stem has a character other than a dot. *)
Definition plain_png (f : string) : Prop :=
  ∃ stem, f = stem +:+ ".png" ∧ Py.contains "/" stem = false ∧
          Py.only_dots stem = false.




(** The paths a trace writes. *)
Definition writes (t : list event) : list string := omap written t.

(** The paths of the artifacts the success records of a log name, in the
    order of the records. *)
Definition artifact_paths (args : Args) (l : list log_entry) : list string :=
  omap (λ r, match r with
             | Success _ _ _ out => Some (Py.join (result_dir args) out)
             | Failure _ _ => None
             end) l.

(** The paths the WorkUnits [dns], image by image, save their artifacts
    at. *)
Definition saved_paths (args : Args) (files : list string)
    (dns : list (list (op_class * string * Z))) : list string :=
  concat (zip_with (λ f dn, output_path args f <$> dn) files dns).

(** The command line when only the two required options are given:
    [--width], [--height], [--seed] and [--max_mag] take the defaults of
    their [add_argument] calls. *)
Definition default_args (image_dir result_dir : string) : Args :=
  mkArgs image_dir result_dir 200 64 0 5.

End Driver.


(** ** A small concrete setting

    Images are strings, generator states are integers.  It serves to run
    the script on concrete inputs. *)

Module Demo.

(** [listing]: what [os.listdir] returns; [unsavable]: the paths at which
    [save] raises. *)
Definition ext (listing : list string) (unsavable : string → bool)
  : @External string Z :=
  {| np_seed_state := λ s, s;
     os_listdir := λ _, listing;
     Image_open := λ n,
       match n with
       | Some (File (Bytes data)) => Ok data
       | Some (File (PngOf img)) => Ok img
       | Some (File (JsonOf _ _)) =>
           Raise (mkExn "UnidentifiedImageError" "cannot identify image file")
       | Some Dir => Raise (mkExn "IsADirectoryError" "Is a directory")
       | None => Raise (mkExn "FileNotFoundError" "No such file or directory")
       end;
     Image_resize := λ img wd ht,
       if (0 <? wd)%Z && (0 <? ht)%Z then Ok img
       else Raise (mkExn "ValueError" "height and width must be > 0");
     Image_save := λ img p,
       if unsavable p then Some (mkExn "OSError" "cannot write") else None |}.

(** [bad]: the operator calls that raise.  Every other call marks the
    image with the state of the generator, and advances the generator. *)
Definition ops (bad : op_class → Z → bool) : @Operators string Z :=
  {| op_init := λ _ g, (Ok tt, g);
     op_call := λ cls img mag g,
       if bad cls mag
       then (Raise (mkExn "ValueError" "operator failed"), (g + 1)%Z)
       else (Ok (img +:+ "*" +:+ pretty g), (g + 1)%Z) |}.

Definition all_good : op_class → Z → bool := λ _ _, false.
Definition all_savable : string → bool := λ _, false.

(** [fog] raises at magnitude 2. *)
Definition fog2_bad : op_class → Z → bool :=
  λ cls mag, bool_decide (cls = Fog) && bool_decide (mag = 2%Z).

Definition args (mm : Z) : Args := mkArgs "in" "out" 200 64 7 mm.

(** The input directory holds [a.png] and [b.png]. *)
Definition disk : gmap string (@node string) :=
  {[ "in/a.png" := File (Bytes "A"); "in/b.png" := File (Bytes "B") ]}.

(** The input directory holds [.png] and [.png.png]. *)
Definition dot_disk : gmap string (@node string) :=
  {[ "in/.png" := File (Bytes "A"); "in/.png.png" := File (Bytes "B") ]}.


(** [save] raises on the second [rotate] artifact of [a.png]. *)
Definition rotate2_unsavable : string → bool :=
  λ p, bool_decide (p = "out/a_rotate_2.png").

End Demo.

(** ** Loops and the shape of a run *)

Section Shape.

Context {Image Rng : Type} `{!@External Image Rng, !@Operators Image Rng}.

Local Abbreviation World := (@World Image Rng).
Local Abbreviation M := (@M Image Rng).

Lemma bind_ok {A B} (m : M A) (k : A → M B) (w w' : World) (a : A) :
  m w = (Ok a, w') → bind m k w = k a w'.
Proof. unfold bind. intros ->. reflexivity. Qed.

Lemma for_each_app {X} (xs ys : list X) (body : X → M unit) (w : World) :
  for_each (xs ++ ys) body w
  = bind (for_each xs body) (λ _, for_each ys body) w.
Proof.
  revert w. induction xs as [|x xs IH]; intros w; simpl.
  - reflexivity.
  - unfold bind in *. destruct (body x w) as [[[]|e] w1]; [|reflexivity].
    apply IH.
Qed.

Lemma for_each_fmap {X Y} (f : X → Y) (xs : list X) (body : Y → M unit)
    (w : World) :
  for_each (f <$> xs) body w = for_each xs (λ x, body (f x)) w.
Proof.
  revert w. induction xs as [|x xs IH]; intros w; simpl; [reflexivity|].
  unfold bind. destruct (body (f x) w) as [[[]|e] w1]; [apply IH|reflexivity].
Qed.

(** The two inner loops run the WorkUnits of [work_units] one after the
    other. *)
Lemma nested_loops (catalog : list (op_class * string)) (mm : Z)
    (body : op_class → string → Z → M unit) (w : World) :
  for_each catalog (λ '(func, func_name),
    for_each (Py.range 1 (mm + 1)) (λ mag, body func func_name mag)) w
  = for_each (work_units catalog mm) (λ '(func, func_name, mag),
      body func func_name mag) w.
Proof.
  revert w. unfold work_units.
  induction catalog as [|[func name] cat IH]; intros w; [reflexivity|].
  rewrite bind_cons, for_each_app. simpl. unfold bind.
  rewrite for_each_fmap.
  destruct (for_each (Py.range 1 (mm + 1)) _ w) as [[[]|e] w1];
    [apply IH|reflexivity].
Qed.

(** A loop whose body steps by [R_ok] or raises by [R_fail]. *)
Lemma for_each_chain {X} (R_ok : X → World → World → Prop)
    (R_fail : X → Exn → World → World → Prop) (body : X → M unit) :
  (∀ x w, match body x w with
          | (Ok _, w') => R_ok x w w'
          | (Raise e, w') => R_fail x e w w'
          end) →
  ∀ xs w,
    match for_each xs body w with
    | (Ok _, w') => chain R_ok xs w w'
    | (Raise e, w') =>
        ∃ done x rest w1, xs = done ++ x :: rest ∧
          chain R_ok done w w1 ∧ R_fail x e w1 w'
    end.
Proof.
  intros Hbody xs. induction xs as [|x xs IH]; intros w; simpl.
  - constructor.
  - unfold bind. specialize (Hbody x w).
    destruct (body x w) as [[[]|e] w1].
    + specialize (IH w1). destruct (for_each xs body w1) as [[[]|e] w2].
      * econstructor; eassumption.
      * destruct IH as (done & y & rest & w3 & -> & Hc & Hf).
        exists (x :: done), y, rest, w3. split; [reflexivity|].
        split; [econstructor; eassumption|assumption].
    + exists [], x, xs, w. split; [reflexivity|]. split; [constructor|assumption].
Qed.



(** One WorkUnit either completes or raises. *)
Lemma work_unit_spec (args : Args) (f : string) (img : Image)
    (func : op_class) (func_name : string) (mag : Z) (w : World) :
  match work_unit args f img func func_name mag w with
  | (Ok _, w') => unit_ok args f (func, func_name, mag) w w'
  | (Raise _, w') => unit_fail (func, func_name, mag) w w'
  end.
Proof.
  unfold work_unit, apply_augmentation, save, bind, new_obj, emit, with_rng,
    lift, log_data_append, set_fs; simpl.
  destruct (op_init func (np_random w)) as [[[]|e] g1]; simpl.
  - destruct (op_call func img mag g1) as [[im|e] g2]; simpl.
    + destruct (Image_save im _) as [e|] eqn:Hs; simpl.
      * exists g2, [EvNew func (next_obj w); EvCall func (next_obj w) mag].
        rewrite <- !app_assoc. simpl. split; [reflexivity|]. right; reflexivity.
      * exists g2, im. rewrite <- !app_assoc. reflexivity.
    + exists g2, [EvNew func (next_obj w); EvCall func (next_obj w) mag].
      rewrite <- !app_assoc. simpl. split; [reflexivity|]. right; reflexivity.
  - exists g1, [EvNew func (next_obj w)]. split; [reflexivity|]. left; reflexivity.
Qed.

(** The [try] block of an image: it completes all WorkUnits, or raises
    at the open, or raises in one WorkUnit after completing those before
    it. *)
Lemma image_body_spec (catalog : list (op_class * string)) (args : Args)
    (f : string) (w : World) :
  let w0 := after (emit (EvOpen (Py.join (image_dir args) f))) w in
  match image_body catalog args f w with
  | (Ok _, w') =>
      chain (unit_ok args f) (work_units catalog (max_mag args)) w0 w'
  | (Raise _, w') =>
      w' = w0 ∨
      ∃ done u rest w1,
        work_units catalog (max_mag args) = done ++ u :: rest ∧
        chain (unit_ok args f) done w0 w1 ∧ unit_fail u w1 w'
  end.
Proof.
  intros w0. unfold image_body, open_resize. unfold bind at 1 2 3.
  unfold emit at 1. fold w0.
  change (mkWorld (np_random w) (fs w) (log_data w) (next_obj w)
            (trace w ++ [EvOpen (Py.join (image_dir args) f)])) with w0.
  destruct (Image_open (fs w0 !! _)) as [img0|e]; [|left; reflexivity].
  unfold lift. destruct (Image_resize img0 _ _) as [img|e]; [|left; reflexivity].
  rewrite nested_loops.
  pose proof (for_each_chain (unit_ok args f) (λ u _, unit_fail u)
    (λ '(func, func_name, mag), work_unit args f img func func_name mag)) as Hl.
  specialize (Hl (λ u w, ltac:(destruct u as [[func name] mag];
                                apply work_unit_spec))).
  specialize (Hl (work_units catalog (max_mag args)) w0).
  destruct (for_each (work_units catalog (max_mag args)) _ w0) as [[[]|e] w1].
  - exact Hl.
  - right. exact Hl.
Qed.

(** One iteration of the loop over the images never raises. *)
Lemma process_image_spec (catalog : list (op_class * string)) (args : Args)
    (f : string) (w : World) :
  match process_image catalog args f w with
  | (Ok _, w') => image_run catalog args f w w'
  | (Raise _, _) => False
  end.
Proof.
  unfold process_image, try_except.
  pose proof (image_body_spec catalog args f w) as Hb. simpl in Hb.
  destruct (image_body catalog args f w) as [[[]|e] w1].
  - simpl. apply image_complete. exact Hb.
  - unfold log_data_append at 1.
    destruct Hb as [->|(done & u & rest & w2 & Hu & Hc & Hf)].
    + apply (image_not_opened catalog args f w e).
    + apply (image_unit_raised catalog args f w done u rest w2 w1 e Hu Hc Hf).
Qed.

Lemma setup_spec (args : Args) (w : World) :
  setup args w = (Ok tt, setup_world args w).
Proof.
  unfold setup, setup_world, setup_events, np_random_seed, os_path_exists,
    os_makedirs, json_dump_file, bind, emit, set_rng, set_fs, ret; simpl.
  destruct (bool_decide (is_Some (fs w !! result_dir args))); simpl;
    match goal with
    | |- context [bool_decide (is_Some (?d !! log_file_path args))] =>
        destruct (bool_decide (is_Some (d !! log_file_path args)))
    end; simpl; rewrite <- ?app_assoc; reflexivity.
Qed.

(** The whole run: setup, listing, one [image_run] per image in listing
    order, and the final dump of the log. *)
Lemma run_spec (catalog : list (op_class * string)) (args : Args)
    (w : World) :
  ∃ wl,
    chain (image_run catalog args) (png_files args)
      (after (emit (EvListdir (image_dir args))) (setup_world args w)) wl ∧
    run catalog args w
    = (Ok tt, after (json_dump_file (log_json (log_data wl))
                       (log_file_path args) (Some 4%Z)) wl).
Proof.
  unfold run.
  erewrite bind_ok by apply setup_spec.
  erewrite bind_ok by reflexivity.
  set (w1 := after (emit (EvListdir (image_dir args))) (setup_world args w)).
  pose proof (for_each_chain (image_run catalog args) (λ _ _ _ _, False)
    (process_image catalog args)) as Hl.
  specialize (Hl (λ f w, ltac:(
    pose proof (process_image_spec catalog args f w) as Hp;
    destruct (process_image catalog args f w) as [[[]|e] w']; exact Hp))).
  specialize (Hl (png_files args) w1).
  destruct (for_each (png_files args) (process_image catalog args) w1)
    as [[[]|e] wl] eqn:Hfe.
  - exists wl. split; [exact Hl|].
    erewrite bind_ok by exact Hfe. reflexivity.
  - destruct Hl as (? & ? & ? & ? & _ & _ & []).
Qed.

End Shape.

(** ** What the loop over the images does to the world *)

Section Deltas.

Context {Image Rng : Type} `{!@External Image Rng, !@Operators Image Rng}.

Local Abbreviation World := (@World Image Rng).
Local Abbreviation event := (@event Image).

Implicit Types (w : World) (evs : list event) (args : Args).

Lemma call_after_new_app evs1 evs2 :
  call_after_new evs1 → call_after_new evs2 →
  call_after_new (evs1 ++ evs2).
Proof.
  intros H1 H2 i c o m Hi. apply lookup_app_Some in Hi as [Hi|[Hle Hi]].
  - destruct (H1 _ _ _ _ Hi) as (j & -> & Hj). exists j. split; [done|].
    by apply lookup_app_l_Some.
  - destruct (H2 _ _ _ _ Hi) as (j & Hij & Hj).
    exists (length evs1 + j). split; [lia|].
    rewrite lookup_app_r by lia. rewrite <- Hj. f_equal. lia.
Qed.

Lemma delta_nil args w : delta args w [] w.
Proof.
  split; simpl; rewrite ?app_nil_r; try done; try lia.
Qed.

Lemma delta_trans args w w1 w2 evs1 evs2 :
  delta args w evs1 w1 → delta args w1 evs2 w2 →
  delta args w (evs1 ++ evs2) w2.
Proof.
  intros [T1 D1 K1 P1 C1 O1 N1 S1] [T2 D2 K2 P2 C2 O2 N2 S2].
  split.
  - rewrite T2, T1. by rewrite app_assoc.
  - rewrite D2, D1. unfold disk_after. by rewrite foldl_app.
  - by apply Forall_app.
  - by apply Forall_app.
  - by apply call_after_new_app.
  - unfold ev_news in *. rewrite omap_app, fmap_app, length_app, seq_app.
    rewrite O1, O2, N1. done.
  - unfold ev_news in *. rewrite omap_app, length_app. lia.
  - unfold ev_news, ev_calls in *. rewrite !omap_app, !fmap_app.
    by apply sublist_app.
Qed.

(** Appending to [log_data] touches neither the trace nor the disk. *)
Lemma delta_log_append args w evs w1 r :
  delta args w evs w1 → delta args w evs (after (log_data_append r) w1).
Proof. intros []. by split. Qed.

Lemma delta_open args w p :
  delta args w [EvOpen p] (after (emit (EvOpen p)) w).
Proof.
  split; simpl; try done; try lia.
  - repeat constructor.
  - repeat constructor. done.
  - intros [|[|i]] c o m Hi; simplify_eq/=.
Qed.

End Deltas.

(** ** Paths *)

Section Paths.

Lemma app_empty_l (s : string) : "" +:+ s = s.
Proof. reflexivity. Qed.

Lemma app_String (c : ascii) (a s : string) :
  String c a +:+ s = String c (a +:+ s).
Proof. reflexivity. Qed.

Lemma app_ne_empty (a b : string) : b ≠ "" → a +:+ b ≠ "".
Proof. destruct a; [by rewrite app_empty_l|by rewrite app_String]. Qed.

Lemma last_char_app (a b : string) :
  b ≠ "" → Py.last_char (a +:+ b) = Py.last_char b.
Proof.
  intros Hb. induction a as [|c a IH]; [done|].
  rewrite app_String. simpl. rewrite IH.
  destruct (a +:+ b) eqn:E; [|done]. by apply app_ne_empty in E.
Qed.

Lemma join_last_char (a b : string) :
  b ≠ "" → Py.last_char (Py.join a b) = Py.last_char b.
Proof.
  intros Hb. unfold Py.join.
  destruct (Py.startswith b "/"); [done|].
  destruct (_ || _).
  - by apply last_char_app.
  - rewrite last_char_app by by apply app_ne_empty.
    by apply last_char_app.
Qed.

Lemma output_file_name_last (f n : string) (m : Z) :
  output_file_name f n m ≠ "" ∧
  Py.last_char (output_file_name f n m) = Some "g"%char.
Proof.
  unfold output_file_name. split.
  - by apply app_ne_empty.
  - rewrite !last_char_app; try done; by repeat apply app_ne_empty.
Qed.

(** No artifact is written over the log document. *)
Lemma output_path_ne_log (args : Args) (f : string)
    (u : op_class * string * Z) :
  output_path args f u ≠ log_file_path args.
Proof.
  destruct u as [[c n] m]. unfold output_path, log_file_path. intros Heq.
  apply (f_equal Py.last_char) in Heq.
  destruct (output_file_name_last f n m) as [Hne Hl].
  rewrite !join_last_char in Heq by done. rewrite Hl in Heq. done.
Qed.

Lemma app_assoc_str (a b c : string) : (a +:+ b) +:+ c = a +:+ (b +:+ c).
Proof.
  induction a as [|x a IH]; [done|]. by rewrite !app_String, IH.
Qed.

Lemma contains_app (c : ascii) (a b : string) :
  Py.contains c (a +:+ b) = Py.contains c a || Py.contains c b.
Proof.
  induction a as [|x a IH]; [done|].
  rewrite app_String. simpl. by rewrite IH, orb_assoc.
Qed.

(** A string splits in one way only at the last occurrence of [c]. *)
Lemma split_at_last (c : ascii) (a1 b1 a2 b2 : string) :
  Py.contains c b1 = false → Py.contains c b2 = false →
  a1 +:+ String c b1 = a2 +:+ String c b2 → a1 = a2 ∧ b1 = b2.
Proof.
  intros H1 H2. revert a2.
  induction a1 as [|x a1 IH]; intros [|y a2];
    rewrite ?app_empty_l, ?app_String; intros Heq.
  - by simplify_eq.
  - injection Heq as -> ->.
    rewrite contains_app in H1. simpl in H1.
    rewrite bool_decide_eq_true_2 in H1 by done.
    by rewrite orb_true_r in H1.
  - injection Heq as -> <-.
    rewrite contains_app in H2. simpl in H2.
    rewrite bool_decide_eq_true_2 in H2 by done.
    by rewrite orb_true_r in H2.
  - injection Heq as -> Heq. destruct (IH _ Heq) as [-> ->]. done.
Qed.

Lemma pretty_N_go_contains (c : ascii) (x : N) (s : string) :
  (∀ n, pretty_N_char n ≠ c) →
  Py.contains c s = false → Py.contains c (pretty_N_go x s) = false.
Proof.
  intros Hc. revert s. induction (N.lt_wf_0 x) as [x _ IH]; intros s Hs.
  destruct (decide (0 < x)%N) as [Hx|Hx].
  - rewrite pretty_N_go_step by done. apply IH.
    + by apply N.div_lt.
    + simpl. rewrite Hs, bool_decide_eq_false_2; [done|apply Hc].
  - assert (x = 0%N) as -> by lia. by rewrite pretty_N_go_0.
Qed.

Lemma pretty_N_char_not_underscore (n : N) : pretty_N_char n ≠ "_"%char.
Proof. unfold pretty_N_char. by repeat case_match. Qed.

(** [str(n)] has no underscore. *)
Lemma str_int_no_underscore (n : Z) :
  Py.contains "_" (Py.str_int n) = false.
Proof.
  unfold Py.str_int, pretty, pretty_Z.
  destruct n as [|q|q]; [done|..];
    unfold pretty, pretty_positive, pretty, pretty_N;
    (case_decide; [done|]); rewrite ?app_String, ?app_empty_l; simpl;
    apply pretty_N_go_contains; auto using pretty_N_char_not_underscore.
Qed.

(** [posixpath.splitext] splits: root and extension give back the path. *)
Lemma take_drop_str (n : nat) (s : string) : Py.take n s +:+ Py.drop n s = s.
Proof.
  revert s. induction n as [|n IH]; intros [|c s]; simpl; try done.
  by rewrite app_String, IH.
Qed.

Lemma app_empty_r (s : string) : s +:+ "" = s.
Proof. induction s as [|c s IH]; [done|]. by rewrite app_String, IH. Qed.

Lemma splitext_join (p : string) :
  (Py.splitext p).1 +:+ (Py.splitext p).2 = p.
Proof.
  unfold Py.splitext. repeat case_match; simpl;
    auto using take_drop_str, app_empty_r.
Qed.

(** The output name determines base name, operator name and magnitude,
    as long as the operator name has no underscore. *)
Lemma output_file_name_inj (f1 f2 n1 n2 : string) (m1 m2 : Z) :
  Py.contains "_" n1 = false → Py.contains "_" n2 = false →
  output_file_name f1 n1 m1 = output_file_name f2 n2 m2 →
  (Py.splitext f1).1 = (Py.splitext f2).1 ∧ n1 = n2 ∧ m1 = m2.
Proof.
  intros Hn1 Hn2. unfold output_file_name.
  set (b1 := (Py.splitext f1).1). set (b2 := (Py.splitext f2).1).
  rewrite <- !(app_assoc_str _ "_" (n1 +:+ _)).
  rewrite <- !(app_assoc_str _ "_" (n2 +:+ _)).
  rewrite <- !(app_assoc_str _ n1), <- !(app_assoc_str _ n2).
  change ("_" +:+ Py.str_int m1 +:+ ".png")
    with (String "_" (Py.str_int m1 +:+ ".png")).
  change ("_" +:+ Py.str_int m2 +:+ ".png")
    with (String "_" (Py.str_int m2 +:+ ".png")).
  intros Heq. apply split_at_last in Heq as [Heq1 Heq2].
  2,3: by rewrite contains_app, str_int_no_underscore.
  rewrite !app_assoc_str in Heq1.
  change ("_" +:+ n1) with (String "_" n1) in Heq1.
  change ("_" +:+ n2) with (String "_" n2) in Heq1.
  apply split_at_last in Heq1 as [-> ->]; [|done..].
  change (Py.str_int m1 +:+ String "." "png"
          = Py.str_int m2 +:+ String "." "png") in Heq2.
  apply split_at_last in Heq2 as [Heq2 _]; [|done..].
  apply (inj pretty) in Heq2. done.
Qed.

(** The operator names of the built-in catalog have no underscore. *)
Lemma catalog_names_plain :
  Forall (λ cn : op_class * string, Py.contains "_" cn.2 = false)
    augmentation_functions.
Proof. repeat constructor. Qed.

Lemma rfind_absent (c : ascii) (s : string) :
  Py.contains c s = false → Py.rfind s c = (-1)%Z.
Proof.
  induction s as [|x s IH]; [done|]. simpl.
  intros [Hx Hs]%orb_false_elim. rewrite IH by done. simpl.
  by rewrite Hx.
Qed.

Lemma rfind_last (c : ascii) (a b : string) :
  Py.contains c b = false →
  Py.rfind (a +:+ String c b) c = Z.of_nat (String.length a).
Proof.
  intros Hb. induction a as [|x a IH].
  - rewrite app_empty_l. simpl. rewrite rfind_absent by done. simpl.
    by rewrite bool_decide_eq_true_2.
  - rewrite app_String. simpl. rewrite IH.
    destruct (0 <=? Z.of_nat (String.length a))%Z eqn:E; lia.
Qed.

Lemma splitext_scan_shift (c : ascii) (s : string) (idxs : list nat) :
  Py.splitext_scan (String c s) (S <$> idxs) = Py.splitext_scan s idxs.
Proof.
  induction idxs as [|i idxs IH]; [done|]. rewrite fmap_cons.
  change (Py.splitext_scan (String c s) (S i :: (S <$> idxs)))
    with (if bool_decide (Py.char_at i s ≠ ".") then true
          else Py.splitext_scan (String c s) (S <$> idxs)).
  by rewrite IH.
Qed.

Lemma splitext_scan_stem (stem t : string) :
  Py.splitext_scan (stem +:+ t) (seq 0 (String.length stem))
  = negb (Py.only_dots stem).
Proof.
  induction stem as [|c stem IH]; [done|].
  rewrite app_String. simpl String.length. simpl seq.
  rewrite <- fmap_S_seq. simpl. rewrite splitext_scan_shift, IH.
  unfold Py.char_at. simpl.
  destruct (stem +:+ t); simpl;
    destruct (decide (c = "."%char)) as [->|Hc];
    rewrite ?bool_decide_eq_true_2, ?bool_decide_eq_false_2 by congruence;
    simpl; try done;
    rewrite ?bool_decide_eq_true_2, ?bool_decide_eq_false_2 by congruence;
    done.
Qed.

Lemma take_app_str (a b : string) : Py.take (String.length a) (a +:+ b) = a.
Proof.
  induction a as [|c a IH]; [by destruct b|].
  rewrite app_String. simpl. by rewrite IH.
Qed.

Lemma drop_app_str (a b : string) : Py.drop (String.length a) (a +:+ b) = b.
Proof. induction a as [|c a IH]; [done|]. by rewrite app_String. Qed.

(** What [splitext] makes of a listed PNG name [stem.png]: the stem is
    its base name, unless the stem has dots only (as in [.png]), in which
    case the whole name is. *)
Lemma splitext_png (stem : string) :
  Py.contains "/" stem = false →
  Py.splitext (stem +:+ ".png")
  = if Py.only_dots stem then (stem +:+ ".png", "") else (stem, ".png").
Proof.
  intros Hs. unfold Py.splitext.
  rewrite (rfind_absent "/") by (by rewrite contains_app, Hs).
  change (stem +:+ ".png") with (stem +:+ String "." "png").
  rewrite rfind_last by done.
  rewrite (proj2 (Z.ltb_lt _ _)) by lia.
  rewrite Nat2Z.id. change (Z.to_nat (-1 + 1)) with 0. rewrite Nat.sub_0_r.
  rewrite splitext_scan_stem, take_app_str, drop_app_str.
  by destruct (Py.only_dots stem).
Qed.

Lemma plain_png_base (f : string) :
  plain_png f → f = (Py.splitext f).1 +:+ ".png".
Proof.
  intros (stem & -> & Hs & Hd). by rewrite splitext_png, Hd.
Qed.

Lemma length_app_str (a b : string) :
  String.length (a +:+ b) = String.length a + String.length b.
Proof. induction a as [|c a IH]; [done|]. rewrite app_String. simpl. lia. Qed.

(** The log document is not the result directory. *)
Lemma result_dir_ne_log (args : Args) : result_dir args ≠ log_file_path args.
Proof.
  unfold log_file_path, Py.join. simpl Py.startswith. cbv iota.
  intros Heq. apply (f_equal String.length) in Heq.
  destruct (_ || _); rewrite !length_app_str in Heq; simpl in Heq; lia.
Qed.

End Paths.

(** ** WorkUnits and images *)

Section Images.

Context {Image Rng : Type} `{!@External Image Rng, !@Operators Image Rng}.

Local Abbreviation World := (@World Image Rng).
Local Abbreviation event := (@event Image).
Local Abbreviation node := (@node Image).

Implicit Types (w : World) (evs : list event) (args : Args)
  (d : gmap string node) (catalog : list (op_class * string)).

Lemma ev_opens_app evs1 evs2 :
  ev_opens (evs1 ++ evs2) = ev_opens evs1 ++ ev_opens evs2.
Proof. apply omap_app. Qed.

Lemma ev_opens_open p evs : ev_opens (EvOpen p :: evs) = p :: ev_opens evs.
Proof. reflexivity. Qed.

Lemma executed_from_app cur evs1 evs2 :
  ev_opens evs1 = [] →
  executed_from cur (evs1 ++ evs2)
  = executed_from cur evs1 ++ executed_from cur evs2.
Proof.
  induction evs1 as [|e evs1 IH]; [done|].
  destruct e; simpl; intros Ho; try done; try (by apply IH).
  by rewrite IH.
Qed.

Lemma disk_after_app d evs1 evs2 :
  disk_after d (evs1 ++ evs2) = disk_after (disk_after d evs1) evs2.
Proof. apply foldl_app. Qed.

Lemma disk_after_skip d e evs :
  written e = None → disk_after d (e :: evs) = disk_after d evs.
Proof. by destruct e. Qed.

Lemma disk_after_png_at d evs p :
  Forall (λ e, is_image_event e = true) evs →
  png_at d p → png_at (disk_after d evs) p.
Proof.
  intros Hk. revert d. induction Hk as [|e evs He _ IH]; intros d Hp; [done|].
  simpl. apply IH. destruct e; simpl in *; try done.
  destruct (decide (p0 = p)) as [->|Hne].
  - eexists. apply lookup_insert_eq.
  - destruct Hp as [im Him]. exists im. by rewrite lookup_insert_ne.
Qed.

Lemma disk_after_other d evs p :
  Forall (λ e, written e ≠ Some p) evs → disk_after d evs !! p = d !! p.
Proof.
  intros Hk. revert d. induction Hk as [|e evs He _ IH]; intros d; [done|].
  simpl. rewrite IH. destruct e; simpl in *; try done;
    apply lookup_insert_ne; congruence.
Qed.

Lemma delta_png_at args w evs w' p :
  delta args w evs w' → png_at (fs w) p → png_at (fs w') p.
Proof.
  intros [] Hp. rewrite delta_disk0. by apply disk_after_png_at.
Qed.

Lemma unit_ok_delta args f u w w' :
  unit_ok args f u w w' →
  ∃ im, delta args w [EvNew u.1.1 (next_obj w); EvCall u.1.1 (next_obj w) u.2;
                      EvSave (output_path args f u) im] w'.
Proof.
  intros (g & im & ->). exists im. split; simpl; try done; try lia.
  - repeat constructor.
  - repeat constructor; try done. simpl. intros [= Heq].
    by apply output_path_ne_log in Heq.
  - intros [|[|[|i]]] c o m Hi; simplify_eq/=. by exists 0.
Qed.

Lemma unit_fail_delta args u w w' :
  unit_fail u w w' →
  ∃ evs, delta args w evs w' ∧ ev_opens evs = [] ∧
    fs w' = fs w ∧ log_data w' = log_data w ∧
    ∀ cur, executed_from cur evs `prefix_of` [(cur, u.1.1, u.2)].
Proof.
  intros (g & evs & -> & [->| ->]); eexists; (split; [split|]);
    simpl; try done; try lia.
  all: try (repeat constructor; done).
  all: try (intros [|[|[|i]]] c o m Hi; simplify_eq/=; by exists 0).
  all: try apply sublist_nil_l.
  all: try (repeat split; try done; intros cur; apply prefix_nil).
  all: unfold ev_news; simpl; lia.
Qed.

Lemma artifact_on_disk_delta args w evs w' r :
  delta args w evs w' →
  artifact_on_disk args (fs w) r → artifact_on_disk args (fs w') r.
Proof.
  destruct r; simpl; [|done]. intros Hd [Hn Hp]. split; [done|].
  by eapply delta_png_at.
Qed.

(** WorkUnits that complete one after the other. *)
Lemma units_facts args f us w w' :
  chain (unit_ok args f) us w w' →
  log_data w' = log_data w ++ (success_entry f <$> us) ∧
  ∃ evs, delta args w evs w' ∧ ev_opens evs = [] ∧
    (∀ cur, executed_from cur evs
            = (λ u : op_class * string * Z, (cur, u.1.1, u.2)) <$> us) ∧
    Forall (λ u, png_at (fs w') (output_path args f u)) us.
Proof.
  induction 1 as [w|u us w w1 w2 Hu Hc (IHl & evs & IHd & IHo & IHe & IHp)].
  - split; [by rewrite app_nil_r|]. exists []. split; [apply delta_nil|done].
  - destruct (unit_ok_delta args f u w w1 Hu) as [im Hd].
    destruct Hu as (g & im' & Hw1).
    split.
    { rewrite IHl, Hw1. simpl. by rewrite <- app_assoc. }
    eexists. split; [eapply delta_trans; eassumption|].
    split; [done|]. split.
    + intros cur. simpl. by rewrite IHe.
    + constructor; [|done]. eapply delta_png_at; [eassumption|].
      rewrite Hw1. simpl. eexists. apply lookup_insert_eq.
Qed.

Lemma take_S_middle {A} (l1 l2 : list A) (x : A) (n : nat) :
  length l1 = n → take (S n) (l1 ++ x :: l2) = l1 ++ [x].
Proof.
  intros <-. induction l1 as [|y l1 IH]; simpl; [by rewrite take_0|].
  by rewrite IH.
Qed.

Lemma prefix_singleton {A} (l : list A) (x : A) :
  l `prefix_of` [x] → l = [] ∨ l = [x].
Proof.
  intros [k Hk]. destruct l as [|y [|z l]]; simplify_eq/=; auto.
Qed.

(** One iteration of the loop over the images. *)
Lemma image_run_facts catalog args f w w' :
  image_run catalog args f w w' →
  ∃ o evs, image_out catalog args f o ∧
    log_data w' = log_data w ++ o.1 ∧
    delta args w (EvOpen (Py.join (image_dir args) f) :: evs) w' ∧
    ev_opens evs = [] ∧
    executed_from (Py.join (image_dir args) f) evs = o.2 ∧
    Forall (artifact_on_disk args (fs w')) o.1.
Proof.
  set (p := Py.join (image_dir args) f).
  destruct 1 as [w' Hc|e|done u rest w1 w2 e Hu Hc Hf].
  - apply units_facts in Hc as (Hl & evs & Hd & Ho & He & Hp).
    exists (records_of catalog args f, units_of catalog args f), evs.
    split; [|split; [exact Hl|split; [|split; [done|split]]]].
    + exists (length (work_units catalog (max_mag args))),
        (length (work_units catalog (max_mag args))), [].
      simpl. rewrite app_nil_r.
      unfold records_of, units_of.
      rewrite !take_ge by (by rewrite length_fmap).
      split; [done|]. split; [done|]. left. split; [done|lia].
    + apply (delta_trans _ _ _ _ [_] _ (delta_open args w p) Hd).
    + apply He.
    + simpl. unfold records_of. apply Forall_fmap.
      eapply Forall_impl; [exact Hp|]. intros [[c n] m] Hpng.
      split; [reflexivity|exact Hpng].
  - exists ([Failure f (exn_msg e)], []), [].
    split; [|split; [reflexivity|split; [|split; [done|split; [done|]]]]].
    + exists 0, 0, [Failure f (exn_msg e)]. simpl. split; [done|].
      split; [done|]. right. eauto.
    + apply delta_log_append, delta_open.
    + by repeat constructor.
  - apply units_facts in Hc as (Hl & evs & Hd & Ho & He & Hp).
    destruct (unit_fail_delta args u w1 w2 Hf)
      as (evs2 & Hd2 & Ho2 & Hfs & Hlog & He2).
    specialize (He2 p). apply prefix_singleton in He2.
    exists ((success_entry f <$> done) ++ [Failure f (exn_msg e)],
            executed_from p (evs ++ evs2)), (evs ++ evs2).
    split; [|split; [|split; [|split; [|split; [done|]]]]].
    + rewrite executed_from_app, He by done.
      destruct He2 as [-> | ->].
      * exists (length done), (length done), [Failure f (exn_msg e)]. simpl.
        unfold records_of, units_of. rewrite Hu, !fmap_app.
        rewrite !take_app_length' by (by rewrite length_fmap).
        rewrite app_nil_r. split; [done|]. split; [done|]. right. eauto.
      * exists (length done), (S (length done)), [Failure f (exn_msg e)]. simpl.
        unfold records_of, units_of. rewrite Hu, !fmap_app.
        rewrite take_app_length' by (by rewrite length_fmap).
        split; [done|]. split; [|right; eauto].
        rewrite fmap_cons, take_S_middle by (by rewrite length_fmap). done.
    + simpl. rewrite Hlog, Hl. by rewrite app_assoc.
    + apply delta_log_append.
      apply (delta_trans _ _ _ _ [_] _ (delta_open args w p)).
      eapply delta_trans; eassumption.
    + by rewrite ev_opens_app, Ho, Ho2.
    + simpl. apply Forall_app. split; [|by repeat constructor].
      apply Forall_fmap. eapply Forall_impl; [exact Hp|].
      intros [[c n] m] Hpng. simpl. rewrite Hfs.
      split; [reflexivity|exact Hpng].
Qed.

(** The loop over the images. *)
Lemma images_facts catalog args files w w' :
  chain (image_run catalog args) files w w' →
  ∃ outs evs, Forall2 (image_out catalog args) files outs ∧
    log_data w' = log_data w ++ concat outs.*1 ∧
    delta args w evs w' ∧
    ev_opens evs = Py.join (image_dir args) <$> files ∧
    (∀ cur, executed_from cur evs = concat outs.*2) ∧
    Forall (artifact_on_disk args (fs w')) (concat outs.*1).
Proof.
  induction 1 as [w|f files w w1 w2 Hi Hc
                    (outs & evs & IHo & IHl & IHd & IHp & IHe & IHa)].
  - exists [], []. split; [constructor|]. split; [by rewrite app_nil_r|].
    split; [apply delta_nil|done].
  - apply image_run_facts in Hi as (o & evs1 & Ho & Hl & Hd & Hp & He & Ha).
    exists (o :: outs), ((EvOpen (Py.join (image_dir args) f) :: evs1) ++ evs).
    split; [by constructor|].
    split; [rewrite IHl, Hl; simpl; by rewrite app_assoc|].
    split; [eapply delta_trans; eassumption|].
    split; [|split].
    + rewrite ev_opens_app, ev_opens_open, Hp, IHp. done.
    + intros cur. simpl. rewrite executed_from_app by done.
      by rewrite He, IHe.
    + simpl. apply Forall_app. split; [|done].
      eapply Forall_impl; [exact Ha|]. intros r.
      by apply artifact_on_disk_delta with (evs := evs).
Qed.

(** The whole run. *)
Lemma run_facts catalog args w :
  ∃ wl outs evs, run_summary catalog args w wl outs evs.
Proof.
  destruct (run_spec catalog args w) as (wl & Hc & Hr).
  apply images_facts in Hc as (outs & evs & Ho & Hl & Hd & Hp & He & Ha).
  exists wl, outs, evs.
  assert (after (run catalog args) w
          = after (json_dump_file (log_json (log_data wl))
                     (log_file_path args) (Some 4%Z)) wl) as Hw.
  { unfold after at 1. by rewrite Hr. }
  split; try done.
  - by rewrite Hw.
  - rewrite Hw. destruct Hd as [Ht _ _ _ _ _ _ _].
    change (trace wl = ((trace w ++ setup_events args (fs w))
                        ++ [EvListdir (image_dir args)]) ++ evs) in Ht.
    change (trace wl ++ [EvDump (log_file_path args) (Some 4%Z)
                           (log_json (log_data wl))]
            = trace w ++ run_events args (fs w) evs (log_data wl)).
    unfold run_events. rewrite Ht, <- !app_assoc. reflexivity.
  - rewrite Hw. destruct Hd as [_ Hf _ _ _ _ _ _].
    change (fs wl = disk_after (disk_after (fs w) (setup_events args (fs w)))
                      evs) in Hf.
    unfold run_events.
    rewrite disk_after_app, disk_after_skip by done.
    rewrite disk_after_app, <- Hf. reflexivity.
Qed.



Lemma range_length (lo hi : Z) : length (Py.range lo hi) = Z.to_nat (hi - lo).
Proof. unfold Py.range. by rewrite length_fmap, length_seq. Qed.

Lemma work_units_length catalog (mm : Z) :
  length (work_units catalog mm) = length catalog * Z.to_nat mm.
Proof.
  unfold work_units. induction catalog as [|[c n] cat IH]; [done|].
  rewrite bind_cons, length_app, IH, length_fmap, range_length. simpl.
  f_equal. f_equal. lia.
Qed.

Lemma records_of_length catalog args f :
  length (records_of catalog args f)
  = length catalog * Z.to_nat (max_mag args).
Proof. unfold records_of. by rewrite length_fmap, work_units_length. Qed.

Lemma records_of_success catalog args f :
  Forall (λ r, is_success r = true ∧ entry_file r = f)
    (records_of catalog args f).
Proof.
  unfold records_of. apply Forall_fmap, Forall_true. by intros [[c n] m].
Qed.

Lemma filter_Forall_id {A} (P : A → Prop) `{!∀ x, Decision (P x)}
    (l : list A) :
  Forall P l → filter P l = l.
Proof.
  induction 1 as [|x l Hx _ IH]; [done|].
  rewrite filter_cons_True by done. by rewrite IH.
Qed.

Lemma executed_from_app_r cur evs1 evs2 :
  (∀ c, executed_from c evs2 = []) →
  executed_from cur (evs1 ++ evs2) = executed_from cur evs1.
Proof.
  intros H2. revert cur.
  induction evs1 as [|e evs1 IH]; intros cur; simpl; [by rewrite H2|].
  destruct e; rewrite ?IH; done.
Qed.

Lemma executed_from_skip cur evs1 evs2 :
  Forall (λ e, is_image_event e = false) evs1 →
  executed_from cur (evs1 ++ evs2) = executed_from cur evs2.
Proof.
  induction 1 as [|e evs1 He _ IH]; [done|]. by destruct e.
Qed.

Lemma setup_events_kind args d :
  Forall (λ e, is_image_event e = false) (setup_events args d).
Proof.
  unfold setup_events. constructor; [done|]. apply Forall_app.
  split; repeat case_match; by repeat constructor.
Qed.

Lemma no_image_events evs :
  Forall (λ e, is_image_event e = false) evs →
  ev_opens evs = [] ∧ ev_news evs = [] ∧ ev_calls evs = [] ∧
  ev_saves evs = [].
Proof.
  induction 1 as [|e evs He _ IH]; [done|]. by destruct e.
Qed.

Lemma units_of_eq catalog args f :
  units_of catalog args f
  = catalog ≫= λ '(func, func_name),
      (λ mag, (Py.join (image_dir args) f, func, mag))
        <$> Py.range 1 (max_mag args + 1).
Proof.
  unfold units_of, work_units.
  induction catalog as [|[c n] cat IH]; [done|].
  rewrite !bind_cons, fmap_app, IH. f_equal.
  by rewrite <- list_fmap_compose.
Qed.

Lemma records_of_eq catalog args f :
  records_of catalog args f
  = catalog ≫= λ '(func, func_name),
      (λ mag, Success f func_name mag (output_file_name f func_name mag))
        <$> Py.range 1 (max_mag args + 1).
Proof.
  unfold records_of, work_units.
  induction catalog as [|[c n] cat IH]; [done|].
  rewrite !bind_cons, fmap_app, IH. f_equal.
  by rewrite <- list_fmap_compose.
Qed.

Lemma elem_of_range (lo hi m : Z) :
  m ∈ Py.range lo hi ↔ (lo ≤ m < hi)%Z.
Proof.
  unfold Py.range. rewrite list_elem_of_fmap. split.
  - intros (i & -> & Hi%elem_of_seq). lia.
  - intros Hm. exists (Z.to_nat (m - lo)). split; [lia|].
    apply elem_of_seq. lia.
Qed.

Lemma range_sorted (lo hi : Z) : StronglySorted Z.lt (Py.range lo hi).
Proof.
  unfold Py.range. generalize (Z.to_nat (hi - lo)) as n. generalize 0 as a.
  intros a n. revert a. induction n as [|n IH]; intros a; [constructor|].
  simpl. constructor; [apply IH|].
  apply Forall_fmap, Forall_forall. intros i Hi%elem_of_seq. simpl. lia.
Qed.

Lemma elem_of_work_units catalog (mm : Z) c n m :
  (c, n, m) ∈ work_units catalog mm ↔
  (c, n) ∈ catalog ∧ (1 ≤ m ≤ mm)%Z.
Proof.
  unfold work_units. rewrite list_elem_of_bind. split.
  - intros ([c' n'] & Hm & Hc). apply list_elem_of_fmap in Hm
      as (m' & [= -> -> ->] & Hm'%elem_of_range). split; [done|lia].
  - intros [Hc Hm]. exists (c, n). split; [|done].
    apply list_elem_of_fmap. exists m. split; [done|].
    apply elem_of_range. lia.
Qed.

(** Where the records of the log come from. *)
Lemma outs_origin catalog args files outs :
  Forall2 (image_out catalog args) files outs →
  Forall (λ r, entry_file r ∈ files ∧
               match r with
               | Success f n m out =>
                   ∃ c, (c, n) ∈ catalog ∧ (1 ≤ m ≤ max_mag args)%Z
               | Failure _ _ => True
               end) (concat outs.*1).
Proof.
  induction 1 as [|f [b ex] files outs (k & k' & tail & Hb & _ & Hcase) _ IH].
  - constructor.
  - change (((b, ex) :: outs).*1) with (b :: outs.*1). rewrite concat_cons.
    simpl in Hb. subst b. rewrite <- app_assoc. apply Forall_app. split.
    + apply Forall_take. unfold records_of. apply Forall_fmap.
      apply Forall_forall. intros [[c n] m] Hu%elem_of_work_units.
      simpl. split; [apply elem_of_cons; by left|]. by exists c.
    + apply Forall_app. split.
      * destruct Hcase as [(-> & _)|[[e ->] _]]; repeat constructor.
      * eapply Forall_impl; [exact IH|]. intros r [Hf Hr].
        split; [apply elem_of_cons; by right|done].
Qed.

Lemma prefix_of_app {A} (t a b : list A) :
  t `prefix_of` a ++ b →
  t `prefix_of` a ∨ ∃ t', t = a ++ t' ∧ t' `prefix_of` b.
Proof.
  revert t. induction a as [|x a IH]; intros t Ht.
  - right. by exists t.
  - destruct t as [|y t]; [left; apply prefix_nil|].
    simpl in Ht. pose proof (prefix_cons_inv_1 _ _ _ _ Ht) as ->.
    apply prefix_cons_inv_2 in Ht. destruct (IH _ Ht) as [Hl|(t' & -> & Hr)].
    + left. by apply prefix_cons.
    + right. by exists t'.
Qed.

Lemma Forall_prefix {A} (P : A → Prop) (t l : list A) :
  t `prefix_of` l → Forall P l → Forall P t.
Proof. intros [k ->] Hl. by apply Forall_app in Hl as [? _]. Qed.




Lemma image_out_files catalog args f o :
  image_out catalog args f o → Forall (λ r, entry_file r = f) o.1.
Proof.
  intros (k & k' & tail & -> & _ & Hcase). apply Forall_app. split.
  - apply Forall_take. eapply Forall_impl; [apply records_of_success|].
    by intros r [].
  - destruct Hcase as [(-> & _)|[[e ->] _]]; by repeat constructor.
Qed.

(** With distinct file names, the records of one file are one block of
    the log: success records, then at most one failure record. *)
Lemma outs_block catalog args files outs f :
  Forall2 (image_out catalog args) files outs → NoDup files →
  ∃ pre blk post,
    concat outs.*1 = pre ++ blk ++ post ∧
    Forall (λ r, entry_file r ≠ f) (pre ++ post) ∧
    Forall (λ r, entry_file r = f) blk ∧
    ∃ ss tail, blk = ss ++ tail ∧ Forall (λ r, is_success r = true) ss ∧
      (tail = [] ∨ ∃ e, tail = [Failure f e]).
Proof.
  intros HF. induction HF as [|f0 [b ex] files outs Ho HF IH]; intros Hnd.
  - exists [], [], []. split; [done|]. split; [constructor|].
    split; [constructor|]. exists [], []. split; [done|].
    split; [constructor|by left].
  - apply NoDup_cons in Hnd as [Hf0 Hnd].
    change (((b, ex) :: outs).*1) with (b :: outs.*1). rewrite concat_cons.
    pose proof (image_out_files _ _ _ _ Ho) as Hb. simpl in Hb.
    destruct (decide (f = f0)) as [->|Hne].
    + exists [], b, (concat outs.*1). split; [done|]. split; [|split; [done|]].
      * simpl. eapply Forall_impl; [apply (outs_origin _ _ _ _ HF)|].
        intros r [Hin _] Heq. by rewrite Heq in Hin.
      * destruct Ho as (k & k' & tail & Hbe & _ & Hcase). simpl in Hbe.
        exists (take k (records_of catalog args f0)), tail.
        split; [done|]. split.
        -- apply Forall_take. eapply Forall_impl; [apply records_of_success|].
           by intros r [].
        -- destruct Hcase as [(-> & _)|[[e ->] _]]; eauto.
    + destruct (IH Hnd) as (pre & blk & post & Heq & Hout & Hin & Hshape).
      exists (b ++ pre), blk, post. split; [by rewrite Heq, <- app_assoc|].
      split; [|done]. rewrite <- app_assoc. apply Forall_app. split; [|done].
      eapply Forall_impl; [exact Hb|]. intros r Hr Hrf. congruence.
Qed.

(** What the images contribute, read as prefixes of what they would
    contribute if nothing raised. *)
Lemma outs_parts catalog args files outs :
  Forall2 (image_out catalog args) files outs →
  Forall2 (λ f part, part `prefix_of` units_of catalog args f)
    files outs.*2 ∧
  (∃ parts,
     filter (λ r, is_success r = true) (concat outs.*1) = concat parts ∧
     Forall2 (λ f part, part `prefix_of` records_of catalog args f)
       files parts) ∧
  (Forall (λ r, is_success r = true) (concat outs.*1) →
   concat outs.*2 = files ≫= units_of catalog args ∧
   concat outs.*1 = files ≫= records_of catalog args).
Proof.
  induction 1 as [|f [b ex] files outs (k & k' & tail & Hb & Hex & Hcase) _
                    (IH1 & (parts & IH2 & IH3) & IH4)].
  - split; [constructor|]. split; [by exists []|done].
  - simpl in Hb, Hex. subst b ex.
    set (b := take k (records_of catalog args f) ++ tail).
    set (ex := take k' (units_of catalog args f)).
    change (((b, ex) :: outs).*1) with (b :: outs.*1).
    change (((b, ex) :: outs).*2) with (ex :: outs.*2).
    rewrite !concat_cons, !bind_cons. subst b ex.
    pose proof (records_of_success catalog args f) as Hrec.
    assert (filter (λ r, is_success r = true) (take k (records_of catalog args f))
            = take k (records_of catalog args f)) as Hfilt.
    { apply filter_Forall_id. eapply Forall_impl.
      - apply Forall_take, Hrec.
      - by intros r []. }
    split; [|split].
    + constructor; [apply prefix_take|done].
    + exists (take k (records_of catalog args f) :: parts).
      split; [|constructor; [apply prefix_take|done]].
      rewrite !filter_app, Hfilt, IH2. rewrite concat_cons.
      destruct Hcase as [(-> & _)|[[e ->] _]]; by rewrite ?app_nil_r.
    + intros Hall. apply Forall_app in Hall as [Hall1 Hall2].
      apply Forall_app in Hall1 as [_ Htail].
      destruct (IH4 Hall2) as [-> ->].
      destruct Hcase as [(-> & Hk & Hk')|[[e ->] _]].
      * rewrite app_nil_r, !take_ge; [done|..];
          unfold records_of, units_of; by rewrite length_fmap.
      * rewrite Forall_singleton in Htail. done.
Qed.



(** [Image.open(p).resize(...)] only adds its event to the world. *)
Lemma open_resize_world (p : string) (wd ht : Z) w :
  (open_resize p wd ht w).2 = after (emit (EvOpen p)) w.
Proof.
  unfold open_resize, bind, lift, after. simpl.
  destruct (Image_open _); [|done]. by destruct (Image_resize _ _ _).
Qed.


(** The events of the loop over the images start with the opening of
    an image. *)
Lemma images_head catalog args files w w' evs :
  chain (image_run catalog args) files w w' →
  trace w' = trace w ++ evs →
  match evs with [] => True | e :: _ => ∃ p, e = EvOpen p end.
Proof.
  destruct 1 as [w|f files w w1 w2 Hi Hc]; intros Ht.
  - rewrite <- (app_nil_r (trace w)) in Ht at 1.
    by apply app_inv_head in Ht as <-.
  - apply image_run_facts in Hi as (o & evs1 & _ & _ & Hd & _).
    apply images_facts in Hc as (outs & evs2 & _ & _ & Hd2 & _).
    rewrite (delta_trace _ _ _ _ Hd2), (delta_trace _ _ _ _ Hd) in Ht.
    rewrite <- app_assoc in Ht. apply app_inv_head in Ht as <-.
    simpl. eauto.
Qed.

Lemma call_after_new_no_calls evs :
  ev_calls evs = [] → call_after_new evs.
Proof.
  intros Hc i c o m Hi. exfalso.
  apply list_elem_of_lookup_2 in Hi.
  apply list_elem_of_split in Hi as (t1 & t2 & ->).
  unfold ev_calls in Hc. rewrite omap_app in Hc. simpl in Hc.
  by apply app_eq_nil in Hc as [_ ?].
Qed.

End Images.

(** ** The claims about the run log *)

Section RunLog.

Context {Image Rng : Type} `{!@External Image Rng, !@Operators Image Rng}.

Local Abbreviation World := (@World Image Rng).

Implicit Types (w : World) (args : Args)
  (catalog : list (op_class * string)).



(** C3: the WorkUnits a run executes, and the success records it
    appends, follow the nesting order images / catalog / magnitudes
    [1..max_mag]: image by image, in listing order, they are a prefix of
    the operator-by-operator, magnitude-by-magnitude enumeration for that
    image; and a run in which nothing raised executes and logs exactly
    that enumeration.  The magnitudes [range(1, max_mag + 1)] are the
    integers from 1 to [max_mag], in ascending order. *)
Theorem C3_nesting_order catalog args g d :
  let w' := after (run catalog args) (start g d) in
  let units f :=
    catalog ≫= λ '(func, func_name),
      (λ mag, (Py.join (image_dir args) f, func, mag))
        <$> Py.range 1 (max_mag args + 1) in
  let records f :=
    catalog ≫= λ '(func, func_name),
      (λ mag, Success f func_name mag (output_file_name f func_name mag))
        <$> Py.range 1 (max_mag args + 1) in
  (∃ parts, executed (trace w') = concat parts ∧
     Forall2 (λ f part, part `prefix_of` units f) (png_files args) parts) ∧
  (∃ parts, filter (λ r, is_success r = true) (log_data w') = concat parts ∧
     Forall2 (λ f part, part `prefix_of` records f) (png_files args) parts) ∧
  (Forall (λ r, is_success r = true) (log_data w') →
   executed (trace w') = png_files args ≫= units ∧
   log_data w' = png_files args ≫= records) ∧
  StronglySorted Z.lt (Py.range 1 (max_mag args + 1)) ∧
  (∀ mag, mag ∈ Py.range 1 (max_mag args + 1) ↔ (1 ≤ mag ≤ max_mag args)%Z).
Proof.
  intros w' units records.
  destruct (run_facts catalog args (start g d)) as (wl & outs & evs & Hs).
  destruct (outs_parts catalog args _ _ (rs_outs _ _ _ _ _ _ Hs))
    as (H1 & (parts & H2 & H3) & H4).
  assert (executed (trace w') = concat outs.*2) as Hex.
  { subst w'. rewrite (rs_trace _ _ _ _ _ _ Hs). simpl trace.
    rewrite app_nil_l. unfold executed, run_events.
    rewrite executed_from_skip by apply setup_events_kind.
    change (executed_from "" (EvListdir (image_dir args) :: ?t))
      with (executed_from "" t).
    rewrite executed_from_app_r by done. apply Hs. }
  assert (log_data w' = concat outs.*1) as Hlog.
  { subst w'. rewrite (rs_final_log _ _ _ _ _ _ Hs).
    by rewrite (rs_log _ _ _ _ _ _ Hs). }
  assert (∀ f, units_of catalog args f = units f) as Hu
    by apply units_of_eq.
  assert (∀ f, records_of catalog args f = records f) as Hrc
    by apply records_of_eq.
  rewrite Hex, Hlog. split; [|split; [|split; [|split]]].
  4: apply range_sorted.
  4: { intros mag. rewrite elem_of_range. lia. }
  - exists outs.*2. split; [done|].
    eapply Forall2_impl; [exact H1|]. intros f part Hpre.
    rewrite <- Hu. exact Hpre.
  - exists parts. split; [done|].
    eapply Forall2_impl; [exact H3|]. intros f part Hpre.
    rewrite <- Hrc. exact Hpre.
  - intros Hall. destruct (H4 Hall) as [-> ->]. split.
    + apply list_bind_ext; [|done]. apply Hu.
    + apply list_bind_ext; [|done]. apply Hrc.
Qed.

(** C4, as the code has it: every success record of a run names its
    output file [{base}_{operator}_{magnitude}.png], with [base] the
    first component of [splitext] of the source name, and the artifact is
    on disk under that name in the result directory.  Two success records
    with the same output name have the same source file, operator and
    magnitude, provided both source names have a character other than a
    dot before their [.png]. *)
Theorem C4_output_names args g d r1 r2 :
  let w' := after (main args) (start g d) in
  r1 ∈ log_data w' → r2 ∈ log_data w' →
  match r1, r2 with
  | Success f1 n1 m1 o1, Success f2 n2 m2 o2 =>
      o1 = (Py.splitext f1).1 +:+ "_" +:+ n1 +:+ "_" +:+ Py.str_int m1
           +:+ ".png" ∧
      png_at (fs w') (Py.join (result_dir args) o1) ∧
      (plain_png f1 → plain_png f2 → o1 = o2 →
       f1 = f2 ∧ n1 = n2 ∧ m1 = m2)
  | _, _ => True
  end.
Proof.
  intros w' Hr1 Hr2. unfold main in w'.
  destruct (run_facts augmentation_functions args (start g d))
    as (wl & outs & evs & Hs).
  assert (log_data w' = concat outs.*1) as Hlog.
  { subst w'. rewrite (rs_final_log _ _ _ _ _ _ Hs).
    by rewrite (rs_log _ _ _ _ _ _ Hs). }
  assert (fs w' = <[log_file_path args :=
                      File (JsonOf (Some 4%Z) (log_json (log_data wl)))]>
                    (fs wl)) as Hfs.
  { subst w'. unfold after at 1. by rewrite (rs_result _ _ _ _ _ _ Hs). }
  rewrite Hlog in Hr1, Hr2.
  pose proof (rs_artifacts _ _ _ _ _ _ Hs) as Ha.
  pose proof (outs_origin _ _ _ _ (rs_outs _ _ _ _ _ _ Hs)) as Ho.
  rewrite Forall_forall in Ha, Ho.
  destruct r1 as [f1 n1 m1 o1|]; [|done].
  destruct r2 as [f2 n2 m2 o2|]; [|done].
  destruct (Ha _ Hr1) as [Hn1 Hp1]. destruct (Ha _ Hr2) as [Hn2 _].
  destruct (Ho _ Hr1) as [_ (c1 & Hc1 & _)].
  destruct (Ho _ Hr2) as [_ (c2 & Hc2 & _)].
  split; [exact Hn1|]. split.
  - rewrite Hfs. destruct Hp1 as [im Him]. exists im.
    rewrite lookup_insert_ne; [done|].
    intros Heq. symmetry in Heq. rewrite Hn1 in Heq.
    by apply (output_path_ne_log args f1 (c1, n1, m1)) in Heq.
  - intros Hf1 Hf2 Heq. rewrite Hn1, Hn2 in Heq.
    pose proof catalog_names_plain as Hnames. rewrite Forall_forall in Hnames.
    apply output_file_name_inj in Heq as (Hb & -> & ->);
      [|apply (Hnames _ Hc1)|apply (Hnames _ Hc2)].
    split; [|done].
    rewrite (plain_png_base f1 Hf1), (plain_png_base f2 Hf2). by rewrite Hb.
Qed.

(** C9: in the log of a run over distinct file names, the records of one
    source image form one contiguous block; the block is a run of success
    records followed by at most one failure record, which is then its last
    record. *)
Theorem C9_image_blocks catalog args g d f :
  NoDup (os_listdir (image_dir args)) →
  let log := log_data (after (run catalog args) (start g d)) in
  ∃ pre blk post,
    log = pre ++ blk ++ post ∧
    Forall (λ r, entry_file r ≠ f) (pre ++ post) ∧
    Forall (λ r, entry_file r = f) blk ∧
    ∃ ss tail, blk = ss ++ tail ∧ Forall (λ r, is_success r = true) ss ∧
      (tail = [] ∨ ∃ e, tail = [Failure f e]).
Proof.
  intros Hnd log.
  destruct (run_facts catalog args (start g d)) as (wl & outs & evs & Hs).
  assert (log = concat outs.*1) as ->.
  { unfold log. rewrite (rs_final_log _ _ _ _ _ _ Hs).
    by rewrite (rs_log _ _ _ _ _ _ Hs). }
  apply (outs_block catalog args (png_files args)).
  - apply Hs.
  - unfold png_files. by apply NoDup_filter.
Qed.


(** C7, as the code has it: the catalog holds operator classes, and an
    instance is constructed for each WorkUnit.  No operator is constructed
    before the first image is opened; every operator call directly follows
    the construction of the instance it is made on; the instances
    constructed in a run are pairwise distinct, and no instance is called
    twice. *)
Theorem C7_fresh_instances catalog args g d :
  let t := trace (after (run catalog args) (start g d)) in
  (∀ i c o, t !! i = Some (EvNew c o) →
     ∃ j p, j < i ∧ t !! j = Some (EvOpen p)) ∧
  call_after_new t ∧
  NoDup (ev_news t).*2 ∧
  NoDup (ev_calls t).*1.*2 ∧
  (ev_calls t).*1.*2 `sublist_of` (ev_news t).*2.
Proof.
  intros t.
  destruct (run_spec catalog args (start g d)) as (wl & Hc & Hr).
  pose proof Hc as Hc'.
  apply images_facts in Hc' as (outs & evs & _ & _ & Hd & _).
  pose proof (images_head _ _ _ _ _ _ Hc (delta_trace _ _ _ _ Hd)) as Hhead.
  set (s := setup_events args d ++ [EvListdir (image_dir args)]).
  set (final := @EvDump Image (log_file_path args) (Some 4%Z)
                  (log_json (log_data wl))).
  assert (t = s ++ evs ++ [final]) as Ht.
  { unfold t, after. rewrite Hr.
    change (trace wl ++ [final] = s ++ evs ++ [final]).
    rewrite (delta_trace _ _ _ _ Hd).
    change (trace (after (emit (EvListdir (image_dir args)))
                     (setup_world args (start g d)))) with s.
    by rewrite <- app_assoc. }
  assert (Forall (λ e : event, is_image_event e = false) s) as Hs.
  { apply Forall_app. split; [apply setup_events_kind|by repeat constructor]. }
  destruct (no_image_events _ Hs) as (_ & Hsn & Hsc & _).
  assert (ev_news t = ev_news evs) as Hnews.
  { rewrite Ht. unfold ev_news in *. rewrite !omap_app, Hsn. simpl.
    by rewrite app_nil_r. }
  assert (ev_calls t = ev_calls evs) as Hcalls.
  { rewrite Ht. unfold ev_calls in *. rewrite !omap_app, Hsc. simpl.
    by rewrite app_nil_r. }
  rewrite Hnews, Hcalls.
  split; [|split; [|split; [|split]]].
  - intros i c o Hi. rewrite Ht in Hi.
    apply lookup_app_Some in Hi as [Hi|[Hle Hi]].
    { apply list_elem_of_lookup_2 in Hi. rewrite Forall_forall in Hs.
      by specialize (Hs _ Hi). }
    destruct evs as [|e evs'].
    { rewrite app_nil_l in Hi. apply list_elem_of_lookup_2 in Hi.
      by apply list_elem_of_singleton in Hi. }
    destruct Hhead as [p ->].
    exists (length s), p. split.
    + destruct (decide (i = length s)) as [->|]; [|lia].
      rewrite Nat.sub_diag in Hi. simplify_eq/=.
    + rewrite Ht, lookup_app_r by lia. by rewrite Nat.sub_diag.
  - rewrite Ht. apply call_after_new_app; [by apply call_after_new_no_calls|].
    apply call_after_new_app; [apply Hd|by apply call_after_new_no_calls].
  - rewrite (delta_objs _ _ _ _ Hd). apply NoDup_seq.
  - eapply sublist_NoDup; [|apply (delta_called _ _ _ _ Hd)].
    rewrite (delta_objs _ _ _ _ Hd). apply NoDup_seq.
  - apply Hd.
Qed.

End RunLog.



(** C2 on concrete runs over [a.png], [b.png] and a missing [c.png], with
    the catalog [rotate], [fog] and [max_mag = 2]: an operator call that
    raises, a save that raises, an open that raises. *)
Lemma C2_examples :
  let E := Demo.ext ["a.png"; "b.png"; "c.png"] in
  let cat := [(Rotate, "rotate"); (Fog, "fog")] in
  let log E O :=
    log_data (after (@run _ _ E O cat (Demo.args 2)) (start 0%Z Demo.disk)) in
  log (E Demo.all_savable) (Demo.ops Demo.fog2_bad)
  = [Success "a.png" "rotate" 1 "a_rotate_1.png";
     Success "a.png" "rotate" 2 "a_rotate_2.png";
     Success "a.png" "fog" 1 "a_fog_1.png";
     Failure "a.png" "operator failed";
     Success "b.png" "rotate" 1 "b_rotate_1.png";
     Success "b.png" "rotate" 2 "b_rotate_2.png";
     Success "b.png" "fog" 1 "b_fog_1.png";
     Failure "b.png" "operator failed";
     Failure "c.png" "No such file or directory"] ∧
  log (E Demo.rotate2_unsavable) (Demo.ops Demo.all_good)
  = [Success "a.png" "rotate" 1 "a_rotate_1.png";
     Failure "a.png" "cannot write";
     Success "b.png" "rotate" 1 "b_rotate_1.png";
     Success "b.png" "rotate" 2 "b_rotate_2.png";
     Success "b.png" "fog" 1 "b_fog_1.png";
     Success "b.png" "fog" 2 "b_fog_2.png";
     Failure "c.png" "No such file or directory"].
Proof. vm_compute. split; reflexivity. Qed.


(** The nesting order on a concrete run: [a.png] and [b.png], the catalog
    [rotate], [fog], [max_mag = 2], nothing raising. *)
Lemma C3_nesting_order_example :
  let E := Demo.ext ["a.png"; "b.png"] Demo.all_savable in
  let O := Demo.ops Demo.all_good in
  let w' := after (@run _ _ E O [(Rotate, "rotate"); (Fog, "fog")] (Demo.args 2))
              (start 0%Z Demo.disk) in
  executed (trace w')
  = [("in/a.png", Rotate, 1%Z); ("in/a.png", Rotate, 2%Z);
     ("in/a.png", Fog, 1%Z); ("in/a.png", Fog, 2%Z);
     ("in/b.png", Rotate, 1%Z); ("in/b.png", Rotate, 2%Z);
     ("in/b.png", Fog, 1%Z); ("in/b.png", Fog, 2%Z)] ∧
  log_data w'
  = [Success "a.png" "rotate" 1 "a_rotate_1.png";
     Success "a.png" "rotate" 2 "a_rotate_2.png";
     Success "a.png" "fog" 1 "a_fog_1.png";
     Success "a.png" "fog" 2 "a_fog_2.png";
     Success "b.png" "rotate" 1 "b_rotate_1.png";
     Success "b.png" "rotate" 2 "b_rotate_2.png";
     Success "b.png" "fog" 1 "b_fog_1.png";
     Success "b.png" "fog" 2 "b_fog_2.png"].
Proof. vm_compute. split; reflexivity. Qed.

(** One image [a.png], the catalog [rotate], [max_mag = 2], seed 7: the
    whole trace, the log, and the disk at the end. *)
Lemma scenario_rotate :
  let E := Demo.ext ["a.png"] Demo.all_savable in
  let O := Demo.ops Demo.all_good in
  let w' := after (@run _ _ E O [(Rotate, "rotate")] (Demo.args 2))
              (start 0%Z {[ "in/a.png" := File (Bytes "A") ]}) in
  let log := [Success "a.png" "rotate" 1 "a_rotate_1.png";
              Success "a.png" "rotate" 2 "a_rotate_2.png"] in
  trace w'
  = [EvSeed 7; EvMakedirs "out";
     EvDump "out/process_log.json" None (JList []);
     EvListdir "in"; EvOpen "in/a.png";
     EvNew Rotate 0; EvCall Rotate 0 1; EvSave "out/a_rotate_1.png" "A*7";
     EvNew Rotate 1; EvCall Rotate 1 2; EvSave "out/a_rotate_2.png" "A*8";
     EvDump "out/process_log.json" (Some 4%Z) (log_json log)] ∧
  log_data w' = log ∧
  fs w'
  = list_to_map
      [("in/a.png", File (Bytes "A")); ("out", Dir);
       ("out/a_rotate_1.png", File (PngOf "A*7"));
       ("out/a_rotate_2.png", File (PngOf "A*8"));
       ("out/process_log.json", File (JsonOf (Some 4%Z) (log_json log)))].
Proof. vm_compute. repeat split; reflexivity. Qed.

(** A listed [b.png] that cannot be opened: one failure record, no
    artifact, and the log document is written. *)
Lemma scenario_undecodable :
  let E := Demo.ext ["b.png"] Demo.all_savable in
  let O := Demo.ops Demo.all_good in
  let w' := after (@main _ _ E O (Demo.args 5))
              (start 0%Z {[ "in/b.png" := Dir ]}) in
  log_data w' = [Failure "b.png" "Is a directory"] ∧
  ev_saves (trace w') = [] ∧
  fs w' !! "out/process_log.json"
  = Some (File (JsonOf (Some 4%Z)
                  (JList [JDict [("file", JStr "b.png");
                                 ("error", JStr "Is a directory")]]))).
Proof. vm_compute. repeat split; reflexivity. Qed.

(** C4 read literally fails: [.png] and [.png.png] are both listed PNG
    files, [splitext] gives both the base name [.png], and their WorkUnits
    for [curve] at magnitude 1 get the same output name; the second
    artifact replaces the first on disk. *)
Lemma C4_counterexample :
  let E := Demo.ext [".png"; ".png.png"] Demo.all_savable in
  let O := Demo.ops Demo.all_good in
  let w' := after (@main _ _ E O (Demo.args 1)) (start 0%Z Demo.dot_disk) in
  @png_files _ _ E (Demo.args 1) = [".png"; ".png.png"] ∧
  log_data w' !! 0 = Some (Success ".png" "curve" 1 ".png_curve_1.png") ∧
  log_data w' !! 27 = Some (Success ".png.png" "curve" 1 ".png_curve_1.png") ∧
  (".png", Curve, 1%Z) ≠ (".png.png", Curve, 1%Z) ∧
  fs w' !! "out/.png_curve_1.png" = Some (File (PngOf "B*34")).
Proof. vm_compute. repeat split; congruence. Qed.

Lemma C4_output_names_witness :
  let E := Demo.ext ["a.png"; "b.png"] Demo.all_savable in
  let O := Demo.ops Demo.all_good in
  let w' := after (@main _ _ E O (Demo.args 1)) (start 0%Z Demo.disk) in
  let r1 := Success "a.png" "curve" 1 "a_curve_1.png" in
  let r2 := Success "b.png" "curve" 1 "b_curve_1.png" in
  r1 ∈ log_data w' ∧ r2 ∈ log_data w' ∧
  png_at (fs w') "out/a_curve_1.png".
Proof.
  intros E O w' r1 r2.
  assert (r1 ∈ log_data w') as H1.
  { apply list_elem_of_lookup. exists 0. vm_compute. reflexivity. }
  assert (r2 ∈ log_data w') as H2.
  { apply list_elem_of_lookup. exists 27. vm_compute. reflexivity. }
  split; [exact H1|]. split; [exact H2|].
  exact (proj1 (proj2 (@C4_output_names _ _ E O (Demo.args 1) 0%Z Demo.disk
                         r1 r2 H1 H2))).
Defined.

(** ** The claims about the log document *)

Section LogFile.

Context {Image Rng : Type} `{!@External Image Rng, !@Operators Image Rng}.

Local Abbreviation World := (@World Image Rng).
Local Abbreviation event := (@event Image).

Implicit Types (w : World) (args : Args)
  (catalog : list (op_class * string)).




End LogFile.


Lemma C9_image_blocks_witness :
  let E := Demo.ext ["a.png"; "b.png"; "c.png"] Demo.all_savable in
  let O := Demo.ops Demo.fog2_bad in
  NoDup (@os_listdir _ _ E (image_dir (Demo.args 2))) ∧
  ∃ pre blk post,
    log_data (after (@run _ _ E O augmentation_functions (Demo.args 2))
                (start 0%Z Demo.disk)) = pre ++ blk ++ post ∧
    Forall (λ r, entry_file r ≠ "b.png") (pre ++ post) ∧
    Forall (λ r, entry_file r = "b.png") blk.
Proof.
  intros E O.
  assert (NoDup (@os_listdir _ _ E (image_dir (Demo.args 2)))) as Hnd.
  { apply (bool_decide_unpack _). vm_compute. exact I. }
  split; [exact Hnd|].
  destruct (@C9_image_blocks _ _ E O augmentation_functions (Demo.args 2)
              0%Z Demo.disk "b.png" Hnd)
    as (pre & blk & post & H1 & H2 & H3 & _).
  exists pre, blk, post. split; [exact H1|]. split; [exact H2|exact H3].
Defined.




(** C7 read literally fails: one image, [max_mag = 2]: [Curve] is
    constructed twice, after the image was opened, and its two magnitudes
    are applied by two different instances. *)
Lemma C7_counterexample :
  let E := Demo.ext ["a.png"] Demo.all_savable in
  let O := Demo.ops Demo.all_good in
  let t := trace (after (@main _ _ E O (Demo.args 2)) (start 0%Z Demo.disk)) in
  filter (λ co, co.1 = Curve) (ev_news t) = [(Curve, 0); (Curve, 1)] ∧
  filter (λ com, com.1.1 = Curve) (ev_calls t)
  = [(Curve, 0, 1%Z); (Curve, 1, 2%Z)] ∧
  t !! 4 = Some (EvOpen "in/a.png") ∧
  t !! 5 = Some (EvNew Curve 0) ∧
  ev_news (take 5 t) = [].
Proof. vm_compute. repeat split; reflexivity. Qed.


(** ** Determinism *)

Section Determinism.

Context {Image Rng : Type} `{!@External Image Rng, !@Operators Image Rng}.

Local Abbreviation World := (@World Image Rng).
Local Abbreviation M := (@M Image Rng).
Local Abbreviation event := (@event Image).
Local Abbreviation node := (@node Image).

Implicit Types (w : World) (args : Args) (S : string → Prop)
  (catalog : list (op_class * string)).






















Lemma setup_events_seed args (d : gmap string node) :
  ∃ t, setup_events args d = EvSeed (seed args) :: t ∧ ev_seeds t = [] ∧
       ev_saves t = [].
Proof.
  unfold setup_events. eexists. split; [reflexivity|].
  unfold ev_seeds, ev_saves. rewrite !omap_app.
  by repeat case_bool_decide.
Qed.


End Determinism.



(** ** The artifacts of a run, and what else it leaves alone *)

Section Trail.

Context {Image Rng : Type} `{!@External Image Rng, !@Operators Image Rng}.
Local Abbreviation World := (@World Image Rng).
Local Abbreviation event := (@event Image).
Local Abbreviation node := (@node Image).

Lemma writes_app (t1 t2 : list event) :
  writes (t1 ++ t2) = writes t1 ++ writes t2.
Proof. apply omap_app. Qed.

Lemma ev_saves_app (t1 t2 : list event) :
  ev_saves (t1 ++ t2) = ev_saves t1 ++ ev_saves t2.
Proof. apply omap_app. Qed.

Lemma artifact_paths_app args (l1 l2 : list log_entry) :
  artifact_paths args (l1 ++ l2)
  = artifact_paths args l1 ++ artifact_paths args l2.
Proof. apply omap_app. Qed.

Lemma artifact_paths_success args f (us : list (op_class * string * Z)) :
  artifact_paths args (success_entry f <$> us) = output_path args f <$> us.
Proof.
  induction us as [|[[c n] m] us IH]; [done|].
  rewrite !fmap_cons.
  change (artifact_paths args
            (success_entry f (c, n, m) :: (success_entry f <$> us)))
    with (output_path args f (c, n, m)
            :: artifact_paths args (success_entry f <$> us)).
  by rewrite IH.
Qed.

(** A stretch of completed WorkUnits saves one artifact per WorkUnit, in
    order, and writes nothing else. *)
Lemma units_trail args f us (w w' : World) :
  chain (unit_ok args f) us w w' →
  ∃ evs, trace w' = trace w ++ evs ∧
    writes evs = output_path args f <$> us ∧
    (ev_saves evs).*1 = output_path args f <$> us.
Proof.
  induction 1 as [w|u us w w1 w2 Hu Hc (evs & IHt & IHw & IHs)].
  - exists []. by rewrite app_nil_r.
  - destruct Hu as (g & im & Hw1).
    exists ([EvNew u.1.1 (next_obj w); EvCall u.1.1 (next_obj w) u.2;
             EvSave (output_path args f u) im] ++ evs).
    rewrite writes_app, ev_saves_app, fmap_app, IHw, IHs, IHt, Hw1.
    simpl. by rewrite <- app_assoc.
Qed.

Lemma unit_fail_trail u (w w' : World) :
  unit_fail u w w' →
  ∃ evs, trace w' = trace w ++ evs ∧ writes evs = [] ∧ ev_saves evs = [] ∧
         log_data w' = log_data w.
Proof.
  intros (g & evs & -> & [->| ->]); eexists; simpl; eauto.
Qed.

(** One iteration of the loop over the images: the WorkUnits [dn] that
    completed, and the failure record if there is one. *)
Lemma image_trail catalog args f (w w' : World) :
  image_run catalog args f w w' →
  ∃ evs dn tail,
    trace w' = trace w ++ evs ∧
    dn `prefix_of` work_units catalog (max_mag args) ∧
    writes evs = output_path args f <$> dn ∧
    (ev_saves evs).*1 = output_path args f <$> dn ∧
    log_data w' = log_data w ++ (success_entry f <$> dn) ++ tail ∧
    (tail = [] ∧ dn = work_units catalog (max_mag args) ∨
     ∃ e, tail = [Failure f e]).
Proof.
  destruct 1 as [w' Hc|e|dn u rest w1 w2 e Hu Hc Hf].
  - pose proof (units_facts _ _ _ _ _ Hc) as [Hl _].
    apply units_trail in Hc as (evs & Ht & Hw & Hs).
    exists (EvOpen (Py.join (image_dir args) f) :: evs),
      (work_units catalog (max_mag args)), [].
    rewrite Ht, Hl. simpl. rewrite <- app_assoc, app_nil_r.
    split; [done|]. split; [done|]. split; [exact Hw|].
    split; [exact Hs|]. split; [done|]. by left.
  - exists [EvOpen (Py.join (image_dir args) f)], [], [Failure f (exn_msg e)].
    simpl. split; [done|]. split; [apply prefix_nil|].
    split; [done|]. split; [done|]. split; [done|]. right. by eexists.
  - pose proof (units_facts _ _ _ _ _ Hc) as [Hl _].
    apply units_trail in Hc as (evs & Ht & Hw & Hs).
    apply unit_fail_trail in Hf as (evs2 & Ht2 & Hw2 & Hs2 & Hl2).
    exists (EvOpen (Py.join (image_dir args) f) :: evs ++ evs2), dn,
      [Failure f (exn_msg e)].
    simpl. rewrite Ht2, Ht, Hl2, Hl. simpl.
    split; [by rewrite <- !app_assoc|].
    split; [rewrite Hu; by apply prefix_app_r|].
    change (writes (EvOpen (Py.join (image_dir args) f) :: evs ++ evs2))
      with (writes (evs ++ evs2)).
    change (ev_saves (EvOpen (Py.join (image_dir args) f) :: evs ++ evs2))
      with (ev_saves (evs ++ evs2)).
    rewrite writes_app, ev_saves_app, Hw2, Hs2, !app_nil_r.
    split; [done|]. split; [done|]. split; [by rewrite <- app_assoc|].
    right. by eexists.
Qed.

(** The loop over the images. *)
Lemma images_trail catalog args files (w w' : World) :
  chain (image_run catalog args) files w w' →
  ∃ evs dns l,
    trace w' = trace w ++ evs ∧ log_data w' = log_data w ++ l ∧
    Forall2 (λ _ dn, dn `prefix_of` work_units catalog (max_mag args))
      files dns ∧
    writes evs = saved_paths args files dns ∧
    (ev_saves evs).*1 = saved_paths args files dns ∧
    artifact_paths args l = saved_paths args files dns.
Proof.
  induction 1 as [w|f files w w1 w2 Hi Hc
                    (evs & dns & l & IHt & IHl & IHf & IHw & IHs & IHa)].
  - exists [], [], []. by rewrite !app_nil_r.
  - apply image_trail in Hi as (evs1 & dn & tail & Ht & Hp & Hw & Hs & Hl & Htl).
    exists (evs1 ++ evs), (dn :: dns), (((success_entry f <$> dn) ++ tail) ++ l).
    rewrite IHt, Ht, IHl, Hl. split; [by rewrite <- !app_assoc|].
    split; [by rewrite <- !app_assoc|]. split; [by constructor|].
    unfold saved_paths in *. simpl.
    rewrite writes_app, ev_saves_app, fmap_app, Hw, Hs, IHw, IHs.
    split; [done|]. split; [done|].
    rewrite !artifact_paths_app, artifact_paths_success, IHa.
    destruct Htl as [[-> _]|[e ->]]; by rewrite ?app_nil_r.
Qed.

Lemma elem_of_saved_paths args files dns us p :
  Forall2 (λ _ dn, dn `prefix_of` us) files dns →
  p ∈ saved_paths args files dns →
  ∃ f u, f ∈ files ∧ u ∈ us ∧ p = output_path args f u.
Proof.
  unfold saved_paths. induction 1 as [|f dn files dns Hp HF IH]; simpl.
  - by intros ?%elem_of_nil.
  - rewrite elem_of_app. intros [Hin|Hin].
    + apply list_elem_of_fmap in Hin as (u & -> & Hu).
      exists f, u. split; [left|]. split; [|done].
      destruct Hp as [k ->]. apply elem_of_app. by left.
    + destruct (IH Hin) as (f' & u & Hf & Hu & ->).
      exists f', u. split; [by right|done].
Qed.

(** A whole run, with the paths it saves artifacts at. *)
Lemma run_trail catalog args (w : World) :
  ∃ evs dns l,
    trace (after (run catalog args) w)
    = trace w ++ run_events args (fs w) evs (log_data w ++ l) ∧
    fs (after (run catalog args) w)
    = disk_after (fs w) (run_events args (fs w) evs (log_data w ++ l)) ∧
    log_data (after (run catalog args) w) = log_data w ++ l ∧
    Forall (λ e, is_image_event e = true) evs ∧
    Forall2 (λ _ dn, dn `prefix_of` work_units catalog (max_mag args))
      (png_files args) dns ∧
    writes evs = saved_paths args (png_files args) dns ∧
    (ev_saves evs).*1 = saved_paths args (png_files args) dns ∧
    artifact_paths args l = saved_paths args (png_files args) dns.
Proof.
  destruct (run_spec catalog args w) as (wl & Hc & Hr).
  pose proof (images_facts _ _ _ _ _ Hc)
    as (outs & evs0 & _ & _ & [Ht0 Hf0 Hk0 _ _ _ _ _] & _).
  apply images_trail in Hc as (evs & dns & l & Ht & Hl & HF & Hw & Hs & Ha).
  assert (evs0 = evs) as -> by (eapply app_inv_head; by rewrite <- Ht0, <- Ht).
  change (log_data wl = log_data w ++ l) in Hl.
  exists evs, dns, l.
  assert (after (run catalog args) w
          = after (json_dump_file (log_json (log_data wl))
                     (log_file_path args) (Some 4%Z)) wl) as Hw'.
  { unfold after at 1. by rewrite Hr. }
  rewrite Hw', <- Hl. repeat split; try done.
  - change (trace wl = ((trace w ++ setup_events args (fs w))
                        ++ [EvListdir (image_dir args)]) ++ evs) in Ht0.
    change (trace wl ++ [EvDump (log_file_path args) (Some 4%Z)
                           (log_json (log_data wl))]
            = trace w ++ run_events args (fs w) evs (log_data wl)).
    unfold run_events. rewrite Ht0, <- !app_assoc. reflexivity.
  - change (fs wl = disk_after (disk_after (fs w) (setup_events args (fs w)))
                      evs) in Hf0.
    unfold run_events.
    rewrite disk_after_app, disk_after_skip by done.
    rewrite disk_after_app, <- Hf0. reflexivity.
Qed.

End Trail.

Section Further.

Context {Image Rng : Type} `{!@External Image Rng, !@Operators Image Rng}.
Local Abbreviation World := (@World Image Rng).
Local Abbreviation event := (@event Image).
Local Abbreviation node := (@node Image).

Lemma setup_events_writes args (d : gmap string node) :
  ev_saves (setup_events args d) = [] ∧
  Forall (λ p, p = result_dir args ∨ p = log_file_path args)
    (writes (setup_events args d)).
Proof.
  unfold setup_events. cbv zeta.
  destruct (bool_decide (is_Some (d !! result_dir args)));
    destruct (bool_decide _); unfold writes, ev_saves; simpl;
    (split; [done|]);
    repeat first [apply Forall_nil_2 | apply Forall_cons_2; [by auto|]].
Qed.

Lemma run_events_saves args (d : gmap string node) (evs : list event) l :
  ev_saves (run_events args d evs l) = ev_saves evs.
Proof.
  unfold run_events.
  rewrite ev_saves_app, (proj1 (setup_events_writes args d)).
  change (ev_saves (EvListdir (image_dir args) :: evs ++
            [EvDump (log_file_path args) (Some 4%Z) (log_json l)]))
    with (ev_saves (evs ++
            [EvDump (log_file_path args) (Some 4%Z) (log_json l)])).
  rewrite ev_saves_app. simpl. by rewrite app_nil_r.
Qed.

Lemma artifact_paths_length args (l : list log_entry) :
  length (artifact_paths args l)
  = length (filter (λ r, is_success r = true) l).
Proof.
  induction l as [|[f n m o|f e] l IH]; [done| |].
  - rewrite filter_cons_True by done.
    change (artifact_paths args (Success f n m o :: l))
      with (Py.join (result_dir args) o :: artifact_paths args l).
    simpl. by rewrite IH.
  - rewrite filter_cons_False by done. exact IH.
Qed.

(** X1: the artifacts a run saves and the success records it logs
    correspond one to one, in order: the path of the i-th artifact saved
    is the result directory joined with the [output_file] of the i-th
    success record.  So no artifact is saved without a success record,
    and no success record is logged without its artifact having been
    saved. *)
Theorem saves_match_success_records catalog args g d :
  let w' := after (run catalog args) (start g d) in
  (ev_saves (trace w')).*1 = artifact_paths args (log_data w') ∧
  length (ev_saves (trace w'))
  = length (filter (λ r, is_success r = true) (log_data w')).
Proof.
  intros w'. subst w'.
  destruct (run_trail catalog args (start g d))
    as (evs & dns & l & Ht & _ & Hl & _ & _ & _ & Hs & Ha).
  rewrite Ht, Hl.
  change (trace (start g d)) with (@nil event).
  change (log_data (start g d)) with (@nil log_entry).
  rewrite !app_nil_l, run_events_saves.
  assert ((ev_saves evs).*1 = artifact_paths args l) as Heq by congruence.
  split; [done|].
  rewrite <- (artifact_paths_length args), <- Heq. by rewrite length_fmap.
Qed.

(** X2: every record of the log of a run names a file that
    [os.listdir] returned for the image directory and that ends in
    [.png]; a success record moreover names an operator of the catalog,
    a magnitude between 1 and [max_mag], and the output file name built
    from these three. *)
Theorem log_records_well_formed catalog args g d :
  Forall (λ r,
            entry_file r ∈ os_listdir (image_dir args) ∧
            Py.endswith (entry_file r) ".png" = true ∧
            match r with
            | Success f n m out =>
                (∃ c, (c, n) ∈ catalog) ∧ (1 ≤ m ≤ max_mag args)%Z ∧
                out = output_file_name f n m
            | Failure _ _ => True
            end)
    (log_data (after (run catalog args) (start g d))).
Proof.
  destruct (run_facts catalog args (start g d)) as (wl & outs & evs & Hs).
  destruct Hs as [_ Ho Hl _ _ _ Ha Hf _ _].
  rewrite Hf, Hl. simpl.
  pose proof (outs_origin _ _ _ _ Ho) as Hor.
  rewrite Forall_forall in Hor, Ha.
  apply Forall_forall. intros r Hr.
  destruct (Hor r Hr) as [Hin Hk]. specialize (Ha r Hr).
  unfold png_files in Hin. apply list_elem_of_filter in Hin as [He Hin].
  split; [done|]. split; [done|].
  destruct r as [f n m out|f e]; [|done].
  destruct Hk as (c & Hc & Hm). destruct Ha as [-> _]. eauto.
Qed.

Lemma filter_Forall_nil {A} (P : A → Prop) `{!∀ x, Decision (P x)}
    (l : list A) :
  Forall (λ x, ¬ P x) l → filter P l = [].
Proof.
  induction 1 as [|x l Hx Hl IH]; [done|]. by rewrite filter_cons_False.
Qed.

Lemma image_out_counts catalog args f o :
  image_out catalog args f o →
  length (filter (λ r, is_failure r = true) o.1) ≤ 1 ∧
  length (filter (λ r, is_success r = true) o.1)
  ≤ length catalog * Z.to_nat (max_mag args).
Proof.
  intros (k & k' & tail & -> & _ & Ht).
  pose proof (records_of_success catalog args f) as Hr.
  assert (Forall (λ r, is_success r = true)
            (take k (records_of catalog args f))) as Hs.
  { apply Forall_take. eapply Forall_impl; [exact Hr|]. by intros r []. }
  rewrite !filter_app, !length_app.
  rewrite (filter_Forall_id _ _ Hs).
  assert (filter (λ r, is_failure r = true) (take k (records_of catalog args f))
          = []) as ->.
  { apply filter_Forall_nil. eapply Forall_impl; [exact Hs|].
    intros [] ? ?; unfold is_failure in *; simpl in *; congruence. }
  pose proof (records_of_length catalog args f) as Hlen.
  rewrite length_take.
  destruct Ht as [(-> & _ & _)|[[e ->] _]]; simpl; lia.
Qed.

Lemma bind_records_length catalog args (files : list string) :
  length (files ≫= records_of catalog args)
  = length files * (length catalog * Z.to_nat (max_mag args)).
Proof.
  induction files as [|f files IH]; [done|].
  rewrite bind_cons, length_app, IH, records_of_length. simpl. lia.
Qed.

(** X3: a run logs at most one failure record per listed PNG file and
    at most [|catalog| * max_mag] success records per listed PNG file;
    when it logs no failure record, the log has exactly
    [|png_files| * |catalog| * max_mag] records. *)
Theorem record_counts catalog args g d :
  let log := log_data (after (run catalog args) (start g d)) in
  let n := length catalog * Z.to_nat (max_mag args) in
  length (filter (λ r, is_failure r = true) log) ≤ length (png_files args) ∧
  length (filter (λ r, is_success r = true) log)
  ≤ length (png_files args) * n ∧
  (Forall (λ r, is_success r = true) log →
   length log = length (png_files args) * n).
Proof.
  intros log n. subst log n.
  destruct (run_facts catalog args (start g d)) as (wl & outs & evs & Hs).
  destruct Hs as [_ Ho Hl _ _ _ _ Hf _ _].
  rewrite Hf, Hl. simpl.
  split; [|split].
  - clear Hl Hf. induction Ho as [|f o files outs Hi Ho IH]; [done|].
    rewrite fmap_cons. simpl. rewrite filter_app, length_app.
    destruct (image_out_counts _ _ _ _ Hi). lia.
  - clear Hl Hf. induction Ho as [|f o files outs Hi Ho IH]; [done|].
    rewrite fmap_cons. simpl. rewrite filter_app, length_app.
    destruct (image_out_counts _ _ _ _ Hi). lia.
  - intros Hall.
    destruct (outs_parts _ _ _ _ Ho) as (_ & _ & Hfull).
    destruct (Hfull Hall) as [_ ->]. apply bind_records_length.
Qed.


Lemma disk_after_is_Some (d : gmap string node) (t : list event) p :
  is_Some (d !! p) → is_Some (disk_after d t !! p).
Proof.
  revert d. induction t as [|e t IH]; intros d Hd; [done|].
  apply IH. destruct e; simpl; try done;
    (apply lookup_insert_is_Some'; by right).
Qed.

Lemma disk_after_keeps (d : gmap string node) (t : list event) p :
  p ∉ writes t → disk_after d t !! p = d !! p.
Proof.
  intros Hp. apply disk_after_other. apply Forall_forall. intros e He Hw.
  apply Hp. apply list_elem_of_omap. by exists e.
Qed.

(** After the events of the setup the result directory and the log file
    exist. *)
Lemma setup_events_exist args (d : gmap string node) :
  is_Some (disk_after d (setup_events args d) !! result_dir args) ∧
  is_Some (disk_after d (setup_events args d) !! log_file_path args).
Proof.
  pose proof (result_dir_ne_log args) as Hne.
  unfold setup_events. cbv zeta.
  change (disk_after d (EvSeed (seed args) :: ?t)) with (disk_after d t).
  rewrite disk_after_app.
  set (t1 := if bool_decide (is_Some (d !! result_dir args)) then []
             else [EvMakedirs (result_dir args)]).
  assert (is_Some (disk_after d t1 !! result_dir args)) as Hr.
  { subst t1. case_bool_decide as Hd; [done|]. simpl.
    rewrite lookup_insert_eq. by eexists. }
  split; [by apply disk_after_is_Some|].
  case_bool_decide as Hl; [done|]. simpl.
  rewrite lookup_insert_eq. by eexists.
Qed.







(** X9: an image that cannot be opened or resized costs one failure
    record and nothing else: the iteration returns normally, the record
    carries the message of the exception, and the disk, the generator
    and the object counter are as before (no operator was constructed,
    no randomness consumed, nothing saved). *)
Theorem open_failure catalog args f w e :
  (open_resize (Py.join (image_dir args) f) (width args) (height args) w).1
  = Raise e →
  process_image catalog args f w
  = (Ok tt,
     mkWorld (np_random w) (fs w) (log_data w ++ [Failure f (exn_msg e)])
       (next_obj w) (trace w ++ [EvOpen (Py.join (image_dir args) f)])).
Proof.
  intros Ho.
  pose proof (open_resize_world (Py.join (image_dir args) f)
                (width args) (height args) w) as Hw.
  destruct (open_resize _ _ _ w) as [r w1] eqn:Hopen.
  simpl in Ho, Hw. subst r w1.
  unfold process_image, try_except, image_body.
  unfold bind at 1. rewrite Hopen. reflexivity.
Qed.

(** X10: for a listed name [stem.png] without [/], the output file of a
    WorkUnit is [stem_operator_magnitude.png], the stem being the name
    without its [.png], unless the stem is made of dots only (or is
    empty): then [splitext] finds no extension and the whole name,
    [.png] included, is the base of the output name. *)
Theorem output_file_name_png (stem n : string) (m : Z) :
  Py.contains "/" stem = false →
  output_file_name (stem +:+ ".png") n m
  = (if Py.only_dots stem then stem +:+ ".png" else stem)
    +:+ "_" +:+ n +:+ "_" +:+ Py.str_int m +:+ ".png".
Proof.
  intros Hs. unfold output_file_name. rewrite splitext_png by done.
  by destruct (Py.only_dots stem).
Qed.

Lemma endswith_refl (s : string) : Py.endswith s s = true.
Proof. destruct s; cbn [Py.endswith]; by rewrite bool_decide_eq_true_2. Qed.

Lemma endswith_app (a s : string) : Py.endswith (a +:+ s) s = true.
Proof.
  induction a as [|c a IH].
  - rewrite app_empty_l. apply endswith_refl.
  - rewrite app_String. cbn [Py.endswith]. rewrite IH. apply orb_true_r.
Qed.

(** X11: every output file name ends in [.png], so it passes the filter
    by which [main] selects the source images: wherever the listing of
    the image directory holds an output name (as when the result
    directory is the image directory of a later run), that artifact is
    processed as a source image.  The log file [process_log.json] never
    is. *)
Theorem outputs_pass_png_filter args f n m :
  Py.endswith (output_file_name f n m) ".png" = true ∧
  (output_file_name f n m ∈ os_listdir (image_dir args) →
   output_file_name f n m ∈ png_files args) ∧
  "process_log.json" ∉ png_files args.
Proof.
  assert (Py.endswith (output_file_name f n m) ".png" = true) as He.
  { unfold output_file_name. rewrite <- !app_assoc_str. apply endswith_app. }
  split; [exact He|]. split.
  - intros Hin. unfold png_files. by apply list_elem_of_filter.
  - unfold png_files. intros [Hno _]%list_elem_of_filter.
    vm_compute in Hno. discriminate.
Qed.

Lemma str_app_inj (d a b : string) : d +:+ a = d +:+ b → a = b.
Proof.
  induction d as [|c d IH]; [by rewrite !app_empty_l|].
  rewrite !app_String. intros [=]. auto.
Qed.

Lemma join_inj (d a b : string) :
  Py.startswith a "/" = false → Py.startswith b "/" = false →
  Py.join d a = Py.join d b → a = b.
Proof.
  unfold Py.join. intros -> ->.
  destruct (bool_decide (d = "") || Py.endswith d "/"); intros Heq.
  - by apply str_app_inj in Heq.
  - apply str_app_inj in Heq. by apply str_app_inj in Heq.
Qed.

Lemma plain_output_no_slash (f n : string) (m : Z) :
  plain_png f → Py.startswith (output_file_name f n m) "/" = false.
Proof.
  intros (stem & -> & Hs & Hd).
  unfold output_file_name. rewrite splitext_png by done. rewrite Hd.
  cbn [fst].
  destruct stem as [|c stem]; [done|].
  rewrite app_String. simpl in *.
  apply orb_false_iff in Hs as [Hc _]. by rewrite Hc.
Qed.

Lemma catalog_class_of_name c1 c2 n :
  (c1, n) ∈ augmentation_functions → (c2, n) ∈ augmentation_functions →
  c1 = c2.
Proof.
  assert (Forall (λ x : op_class * string,
            Forall (λ y : op_class * string, x.2 = y.2 → x.1 = y.1)
              augmentation_functions) augmentation_functions) as HF.
  { apply (bool_decide_unpack _). vm_compute. exact I. }
  intros H1 H2. rewrite Forall_forall in HF.
  specialize (HF _ H1). rewrite Forall_forall in HF.
  exact (HF _ H2 eq_refl).
Qed.

(** Over names with a plain stem, the WorkUnits of the built-in catalog
    have pairwise different output paths. *)
Lemma output_path_inj args f1 f2 (u1 u2 : op_class * string * Z) :
  plain_png f1 → plain_png f2 →
  u1.1 ∈ augmentation_functions → u2.1 ∈ augmentation_functions →
  output_path args f1 u1 = output_path args f2 u2 → f1 = f2 ∧ u1 = u2.
Proof.
  destruct u1 as [[c1 n1] m1], u2 as [[c2 n2] m2]. simpl.
  intros Hp1 Hp2 H1 H2 Heq.
  apply join_inj in Heq; [|by apply plain_output_no_slash..].
  pose proof catalog_names_plain as HF. rewrite Forall_forall in HF.
  apply output_file_name_inj in Heq as (Hb & -> & ->);
    [|exact (HF _ H1)|exact (HF _ H2)].
  rewrite (plain_png_base _ Hp1), (plain_png_base _ Hp2), Hb.
  split; [done|]. by rewrite (catalog_class_of_name _ _ _ H1 H2).
Qed.

Lemma range_NoDup (lo hi : Z) : NoDup (Py.range lo hi).
Proof.
  unfold Py.range. apply NoDup_fmap_2_strong; [|apply NoDup_seq].
  intros x y _ _ ?. lia.
Qed.

Lemma work_units_NoDup catalog (mm : Z) :
  NoDup catalog → NoDup (work_units catalog mm).
Proof.
  intros Hc. unfold work_units. apply NoDup_bind; [| |done].
  - intros [c1 n1] [c2 n2] y _ _
      (m1 & -> & _)%list_elem_of_fmap (m2 & [=] & _)%list_elem_of_fmap.
    by subst.
  - intros [c n] _. apply NoDup_fmap_2_strong; [|apply range_NoDup].
    by intros x y _ _ [=].
Qed.

Lemma saved_paths_NoDup args files dns (us : list (op_class * string * Z)) :
  NoDup files → NoDup us →
  (∀ f1 f2 u1 u2, f1 ∈ files → f2 ∈ files → u1 ∈ us → u2 ∈ us →
     output_path args f1 u1 = output_path args f2 u2 → f1 = f2 ∧ u1 = u2) →
  Forall2 (λ _ dn, dn `prefix_of` us) files dns →
  NoDup (saved_paths args files dns).
Proof.
  intros Hnf Hnu Hinj HF. revert Hnf Hinj.
  induction HF as [|f dn files dns Hp HF IH]; intros Hnf Hinj.
  - constructor.
  - apply NoDup_cons in Hnf as [Hf Hnf].
    change (saved_paths args (f :: files) (dn :: dns))
      with ((output_path args f <$> dn) ++ saved_paths args files dns).
    apply NoDup_app. split; [|split].
    + apply NoDup_fmap_2_strong.
      * intros x y Hx Hy Heq.
        destruct Hp as [k ->].
        apply (Hinj f f x y); try (left; done);
          try (apply elem_of_app; by left); done.
      * destruct Hp as [k ->]. by apply NoDup_app in Hnu as [? _].
    + intros p (u & -> & Hu)%list_elem_of_fmap Hin.
      destruct (elem_of_saved_paths _ _ _ _ _ HF Hin)
        as (f' & u' & Hf' & Hu' & Heq).
      assert (u ∈ us) as Hu1.
      { destruct Hp as [k ->]. apply elem_of_app. by left. }
      destruct (Hinj f f' u u') as [-> _]; try done; [left|by right].
    + apply IH; [done|].
      intros f1 f2 u1 u2 H1 H2. apply Hinj; by right.
Qed.

Lemma disk_after_saved_last (d : gmap string node) (pre post : list event)
    p im :
  p ∉ writes post →
  disk_after d (pre ++ EvSave p im :: post) !! p = Some (File (PngOf im)).
Proof.
  intros Hp. rewrite disk_after_app.
  change (disk_after (disk_after d pre) (EvSave p im :: post))
    with (disk_after (<[p := File (PngOf im)]> (disk_after d pre)) post).
  rewrite disk_after_keeps by done. apply lookup_insert_eq.
Qed.

(** X12: when the listed names are distinct and every listed PNG name
    has a character other than a dot before its [.png], a run of [main]
    saves its artifacts at pairwise different paths, so none replaces
    another, and at the end of the run every artifact path holds the
    very image that was saved there. *)
Theorem artifacts_hold_saved_images args g d :
  NoDup (os_listdir (image_dir args)) →
  Forall plain_png (png_files args) →
  let w' := after (main args) (start g d) in
  NoDup (ev_saves (trace w')).*1 ∧
  ∀ p im, (p, im) ∈ ev_saves (trace w') →
          fs w' !! p = Some (File (PngOf im)).
Proof.
  intros Hnd Hplain w'. subst w'. unfold main.
  destruct (run_trail augmentation_functions args (start g d))
    as (evs & dns & l & Ht & Hf & _ & _ & HF & Hw & Hs & _).
  rewrite Ht, Hf.
  change (trace (start g d)) with (@nil event).
  change (log_data (start g d)) with (@nil log_entry).
  change (fs (start g d)) with d.
  rewrite !app_nil_l, run_events_saves.
  assert (NoDup (saved_paths args (png_files args) dns)) as Hno.
  { eapply saved_paths_NoDup; [| | |exact HF].
    - unfold png_files. by apply NoDup_filter.
    - apply work_units_NoDup. apply (bool_decide_unpack _).
      vm_compute. exact I.
    - rewrite Forall_forall in Hplain.
      intros f1 f2 [[c1 n1] m1] [[c2 n2] m2] H1 H2 Hu1 Hu2.
      apply elem_of_work_units in Hu1 as [Hu1 _].
      apply elem_of_work_units in Hu2 as [Hu2 _].
      apply output_path_inj; auto. }
  split; [by rewrite Hs|].
  intros p im Hin.
  apply list_elem_of_omap in Hin as (e & He & Hm).
  destruct e as [| | | | | | |p' im']; try discriminate Hm.
  injection Hm as -> ->.
  apply list_elem_of_split in He as (pre & post & ->).
  rewrite writes_app in Hw.
  change (writes (EvSave p im :: post)) with (p :: writes post) in Hw.
  rewrite <- Hw in Hno.
  apply NoDup_app in Hno as (_ & _ & Hno). apply NoDup_cons in Hno as [Hp _].
  unfold run_events.
  assert (∀ s : list event, ∀ e f,
            s ++ e :: (pre ++ EvSave p im :: post) ++ [f]
            = (s ++ e :: pre) ++ EvSave p im :: (post ++ [f])) as ->.
  { intros s e f. by rewrite <- !app_assoc. }
  apply disk_after_saved_last.
  rewrite writes_app. intros [Hin|Hin%list_elem_of_singleton]%elem_of_app;
    [done|].
  assert (p ∈ saved_paths args (png_files args) dns) as Hps.
  { rewrite <- Hw. apply elem_of_app. right. left. }
  destruct (elem_of_saved_paths _ _ _ _ _ HF Hps) as (f & u & _ & _ & ->).
  by apply output_path_ne_log in Hin.
Qed.



(** X14: the result directory and the log file are on disk before the
    first image is opened and at every later point of the run: whenever
    the next event is the opening of an image, the construction or call
    of an operator, or the saving of an artifact, both exist. *)
Theorem result_dir_exists_throughout catalog args g d t e :
  t ++ [e] `prefix_of` trace (after (run catalog args) (start g d)) →
  is_image_event e = true →
  is_Some (disk_after d t !! result_dir args) ∧
  is_Some (disk_after d t !! log_file_path args).
Proof.
  destruct (run_trail catalog args (start g d))
    as (evs & dns & l & Ht & _).
  rewrite Ht.
  change (trace (start g d)) with (@nil event).
  change (fs (start g d)) with d.
  rewrite app_nil_l. unfold run_events. intros Hp He.
  pose proof (setup_events_kind args d) as Hk.
  apply prefix_of_app in Hp as [Hp|(t' & Heq & _)].
  - eapply Forall_prefix in Hk; [|exact Hp].
    apply Forall_app in Hk as [_ Hk]. apply Forall_cons in Hk as [Hk _].
    congruence.
  - destruct t' as [|x t' _] using rev_ind.
    + rewrite app_nil_r in Heq. rewrite <- Heq in Hk.
      apply Forall_app in Hk as [_ Hk]. apply Forall_cons in Hk as [Hk _].
      congruence.
    + rewrite app_assoc in Heq. apply app_inj_tail in Heq as [-> _].
      rewrite disk_after_app.
      destruct (setup_events_exist args d).
      split; by apply disk_after_is_Some.
Qed.


Lemma endswith_after_sep (c : ascii) (a f s : string) :
  Py.contains c s = false →
  Py.endswith (a +:+ String c f) s = true → Py.endswith f s = true.
Proof.
  intros Hs. induction a as [|x a IH].
  - rewrite app_empty_l. cbn [Py.endswith].
    intros [Heq%bool_decide_eq_true|He]%orb_true_iff; [|done].
    rewrite <- Heq in Hs. simpl in Hs.
    by rewrite bool_decide_eq_true_2 in Hs.
  - rewrite app_String. cbn [Py.endswith].
    intros [Heq%bool_decide_eq_true|He]%orb_true_iff; [|by apply IH].
    rewrite <- Heq, <- app_String, contains_app in Hs.
    apply orb_false_iff in Hs as [_ Hs]. simpl in Hs.
    by rewrite bool_decide_eq_true_2 in Hs.
Qed.

Lemma endswith_app_r (a f s : string) :
  Py.endswith f s = true → Py.endswith (a +:+ f) s = true.
Proof.
  intros Hf. induction a as [|x a IH]; [by rewrite app_empty_l|].
  rewrite app_String. cbn [Py.endswith]. rewrite IH. apply orb_true_r.
Qed.

Lemma endswith_split (d s : string) :
  Py.endswith d s = true → ∃ a, d = a +:+ s.
Proof.
  induction d as [|x d IH]; cbn [Py.endswith].
  - intros [<-%bool_decide_eq_true|?]%orb_true_iff; [by exists ""|done].
  - intros [<-%bool_decide_eq_true|He]%orb_true_iff; [by exists ""|].
    destruct (IH He) as [a ->]. by exists (String x a).
Qed.

Lemma startswith_slash (b : string) :
  Py.startswith b "/" = true → ∃ b', b = String "/" b'.
Proof.
  destruct b as [|c b]; [done|]. simpl.
  intros [->%bool_decide_eq_true _]%andb_true_iff. by eexists.
Qed.

(** Of two names that [join] sends to the same path under one
    directory, one ends in [.png] if the other does. *)
Lemma join_same_png (d f1 f2 : string) :
  Py.join d f1 = Py.join d f2 →
  Py.endswith f2 ".png" = true → Py.endswith f1 ".png" = true.
Proof.
  unfold Py.join.
  destruct (Py.startswith f1 "/") eqn:H1, (Py.startswith f2 "/") eqn:H2.
  - by intros ->.
  - intros -> Hf. destruct (bool_decide (d = "") || Py.endswith d "/").
    + by apply endswith_app_r.
    + apply endswith_app_r. by apply (endswith_app_r "/").
  - destruct (bool_decide (d = "") || Py.endswith d "/") eqn:Hd.
    + apply orb_true_iff in Hd as [->%bool_decide_eq_true|Hd].
      * rewrite app_empty_l. intros ->. congruence.
      * apply endswith_split in Hd as [a ->].
        rewrite app_assoc_str. intros <-.
        by apply endswith_after_sep.
    + intros <-. by apply endswith_after_sep.
  - destruct (bool_decide (d = "") || Py.endswith d "/"); intros Heq.
    + by apply str_app_inj in Heq as ->.
    + apply str_app_inj in Heq. by apply str_app_inj in Heq as ->.
Qed.

Lemma run_events_opens args (d : gmap string node) (evs : list event) l :
  ev_opens (run_events args d evs l) = ev_opens evs.
Proof.
  unfold run_events.
  rewrite ev_opens_app.
  destruct (no_image_events _ (setup_events_kind args d)) as [-> _].
  change (ev_opens (EvListdir (image_dir args) :: evs ++
            [EvDump (log_file_path args) (Some 4%Z) (log_json l)]))
    with (ev_opens (evs ++
            [EvDump (log_file_path args) (Some 4%Z) (log_json l)])).
  rewrite ev_opens_app. simpl. by rewrite app_nil_r.
Qed.

(** X16: a run opens no entry of the image directory whose name does
    not end in [.png] (in lower case, as [str.endswith] compares): such
    an entry is neither opened nor named in the log. *)
Theorem non_png_never_opened catalog args g d f :
  Py.endswith f ".png" = false →
  (Py.join (image_dir args) f
     ∉ ev_opens (trace (after (run catalog args) (start g d)))) ∧
  Forall (λ r, entry_file r ≠ f)
    (log_data (after (run catalog args) (start g d))).
Proof.
  intros Hf.
  destruct (run_facts catalog args (start g d)) as (wl & outs & evs & Hs).
  destruct Hs as [_ Ho Hl _ Hop _ _ Hfl Ht _].
  split.
  - rewrite Ht.
    change (trace (start g d)) with (@nil event).
    rewrite app_nil_l, run_events_opens, Hop.
    intros (f' & Heq & Hin)%list_elem_of_fmap.
    unfold png_files in Hin. apply list_elem_of_filter in Hin as [He _].
    apply join_same_png in Heq; [congruence|done].
  - rewrite Hfl, Hl. simpl.
    eapply Forall_impl; [exact (outs_origin _ _ _ _ Ho)|].
    intros r [Hin _] <-. unfold png_files in Hin.
    apply list_elem_of_filter in Hin as [He _]. congruence.
Qed.

End Further.



Lemma open_failure_witness :
  let E := Demo.ext ["b.png"] Demo.all_savable in
  let O := Demo.ops Demo.all_good in
  let w := start 0%Z {[ "in/b.png" := Dir ]} in
  let e := mkExn "IsADirectoryError" "Is a directory" in
  (@open_resize _ _ E (Py.join (image_dir (Demo.args 5)) "b.png")
     (width (Demo.args 5)) (height (Demo.args 5)) w).1 = Raise e ∧
  log_data (@process_image _ _ E O augmentation_functions (Demo.args 5)
              "b.png" w).2
  = [Failure "b.png" "Is a directory"].
Proof.
  intros E O w e.
  assert ((@open_resize _ _ E (Py.join (image_dir (Demo.args 5)) "b.png")
             (width (Demo.args 5)) (height (Demo.args 5)) w).1 = Raise e)
    as Hopen by (vm_compute; reflexivity).
  split; [exact Hopen|].
  rewrite (@open_failure _ _ E O augmentation_functions (Demo.args 5)
             "b.png" w e Hopen).
  reflexivity.
Defined.

Lemma output_file_name_png_witness :
  Py.contains "/" "a" = false ∧
  output_file_name "a.png" "curve" 3 = "a_curve_3.png" ∧
  output_file_name "..png" "curve" 3 = "..png_curve_3.png".
Proof.
  split; [reflexivity|]. split.
  - exact (output_file_name_png "a" "curve" 3 eq_refl).
  - exact (output_file_name_png "." "curve" 3 eq_refl).
Defined.

Lemma artifacts_hold_saved_images_witness :
  let E := Demo.ext ["a.png"; "b.png"] Demo.all_savable in
  let O := Demo.ops Demo.all_good in
  let w' := after (@main _ _ E O (Demo.args 1)) (start 0%Z Demo.disk) in
  NoDup (@os_listdir _ _ E (image_dir (Demo.args 1))) ∧
  Forall plain_png (@png_files _ _ E (Demo.args 1)) ∧
  NoDup (ev_saves (trace w')).*1.
Proof.
  intros E O w'.
  assert (NoDup (@os_listdir _ _ E (image_dir (Demo.args 1)))) as Hnd.
  { apply (bool_decide_unpack _). vm_compute. exact I. }
  assert (Forall plain_png (@png_files _ _ E (Demo.args 1))) as Hpl.
  { change (@png_files _ _ E (Demo.args 1)) with ["a.png"; "b.png"].
    constructor; [by exists "a"|]. constructor; [by exists "b"|].
    constructor. }
  split; [exact Hnd|]. split; [exact Hpl|].
  exact (proj1 (@artifacts_hold_saved_images _ _ E O (Demo.args 1) 0%Z
                  Demo.disk Hnd Hpl)).
Defined.


Lemma result_dir_exists_throughout_witness :
  let E := Demo.ext ["a.png"] Demo.all_savable in
  let O := Demo.ops Demo.all_good in
  let d : gmap string (@node string) := {[ "in/a.png" := File (Bytes "A") ]} in
  let t := [EvSeed 7; EvMakedirs "out";
            EvDump "out/process_log.json" None (JList []);
            EvListdir "in"] in
  let e := EvOpen "in/a.png" in
  t ++ [e] `prefix_of`
    trace (after (@run _ _ E O [(Rotate, "rotate")] (Demo.args 2))
             (start 0%Z d)) ∧
  is_image_event e = true ∧
  is_Some (disk_after d t !! result_dir (Demo.args 2)).
Proof.
  intros E O d t e.
  assert (t ++ [e] `prefix_of`
            trace (after (@run _ _ E O [(Rotate, "rotate")] (Demo.args 2))
                     (start 0%Z d))) as Hp.
  { exists (drop 5 (trace (after (@run _ _ E O [(Rotate, "rotate")]
                                    (Demo.args 2)) (start 0%Z d)))).
    vm_compute. reflexivity. }
  split; [exact Hp|]. split; [reflexivity|].
  exact (proj1 (@result_dir_exists_throughout _ _ E O [(Rotate, "rotate")]
                  (Demo.args 2) 0%Z d t e Hp eq_refl)).
Defined.

Lemma non_png_never_opened_witness :
  let E := Demo.ext ["a.png"; "B.PNG"; "notes.txt"] Demo.all_savable in
  let O := Demo.ops Demo.all_good in
  let w' := after (@main _ _ E O (Demo.args 1)) (start 0%Z Demo.disk) in
  Py.endswith "B.PNG" ".png" = false ∧
  (Py.join (image_dir (Demo.args 1)) "B.PNG" ∉ ev_opens (trace w')).
Proof.
  intros E O w'. split; [reflexivity|].
  exact (proj1 (@non_png_never_opened _ _ E O augmentation_functions
                  (Demo.args 1) 0%Z Demo.disk "B.PNG" eq_refl)).
Defined.

(** ** The default command line *)

Section Defaults.

Context {Image Rng : Type} `{!@External Image Rng, !@Operators Image Rng}.
Local Abbreviation event := (@event Image).

(** X17: with only the two directories on the command line, [main]
    seeds the generator with 0 as its first effect and applies the 27
    operators of its catalog at the magnitudes 1 to 5: every magnitude
    in the log lies between 1 and 5, an image yields at most 135 success
    records, and a run without failure record logs exactly 135 records
    per listed PNG file. *)
Theorem default_run idir rdir g d :
  let args := default_args idir rdir in
  let log := log_data (after (main args) (start g d)) in
  (∃ rest, trace (after (main args) (start g d)) = EvSeed 0 :: rest) ∧
  Forall (λ r, match r with
               | Success _ _ m _ => (1 ≤ m ≤ 5)%Z
               | Failure _ _ => True
               end) log ∧
  length (filter (λ r, is_success r = true) log)
  ≤ 135 * length (png_files args) ∧
  (Forall (λ r, is_success r = true) log →
   length log = 135 * length (png_files args)).
Proof.
  intros args log. subst log. unfold main.
  destruct (run_facts augmentation_functions args (start g d))
    as (wl & outs & evs & Hs).
  destruct Hs as [_ Ho Hl _ _ _ _ Hf Ht _].
  rewrite Hf, Hl, Ht.
  change (trace (start g d)) with (@nil event).
  change (log_data (start g d)) with (@nil log_entry).
  change (fs (start g d)) with d.
  rewrite !app_nil_l.
  split; [|split; [|split]].
  - unfold run_events.
    destruct (setup_events_seed args d) as (t & -> & _).
    by eexists.
  - eapply Forall_impl; [exact (outs_origin _ _ _ _ Ho)|].
    intros [f n m o|f e] [_ Hm]; [|done]. by destruct Hm as (c & _ & Hm).
  - clear Hl Hf Ht. induction Ho as [|f o files outs Hi Ho IH]; [simpl; lia|].
    rewrite fmap_cons. simpl. rewrite filter_app, length_app.
    destruct (image_out_counts _ _ _ _ Hi) as [_ Hle].
    change (length augmentation_functions * Z.to_nat (max_mag args))
      with 135 in Hle.
    simpl in IH. lia.
  - intros Hall.
    destruct (outs_parts _ _ _ _ Ho) as (_ & _ & Hfull).
    destruct (Hfull Hall) as [_ ->]. rewrite bind_records_length.
    change (length augmentation_functions * Z.to_nat (max_mag args))
      with 135. lia.
Qed.

End Defaults.
